(** * The particle engine of [smash-particles.tsx]

    A shallow embedding of the [ParticleBursts] component: the six parallel
    typed arrays of the particle pool, the [spawnBurst] closure run by the
    trigger effect, and the [useFrame] callback (integrator and camera
    shake).

    Numbers.  JavaScript numbers and [Float32Array] cells are modelled as
    exact rationals ([Q]): no rounding, no overflow, no NaN.  Every division
    of the source has a divisor bounded away from zero ([Math.max(0.0001, _)]
    or the constant [IMPULSE_RADIUS]), so [Q]'s total division is never used
    at zero.  Where the rounding of doubles decides a property (the decay of
    the camera shake to exactly zero), the module [Double] embeds the same
    lines once more over IEEE 754 binary64 values.  The statements on the
    pool avoid conclusions that the rounding of a [Float32Array] cell could
    reverse: they bound stored lifetimes and sizes with a margin and do not
    promise survival when [age + delta] is only just below the lifetime.

    Library calls.  [Math.sqrt], [Math.sin], [Math.cos], [Math.acos],
    [Math.PI] and the stream of values returned by [Math.random()] are the
    fields of the class [Math]; every theorem holds for every instance.  The
    engine state counts the calls made to [Math.random()] so far, and the
    n-th call returns [Math_random n]. *)

From Stdlib Require Import QArith Qminmax Qabs Qround Qpower Lqa Lia String.
From Stdlib Require Import Floats.SpecFloat.
From stdpp Require Import base list.

Open Scope Q_scope.

(** ** Constants (lines 82-101) *)

Definition PARTICLE_CAPACITY : nat := 5000.
Definition BURST_PARTICLE_COUNT : nat := 500.
Definition SPEED_MIN : Q := 2.2.
Definition SPEED_MAX : Q := 7.
Definition LIFETIME_MIN : Q := 0.8.
Definition LIFETIME_MAX : Q := 1.6.
Definition VELOCITY_DAMPING : Q := 0.98.
Definition GRAVITY : Q := -8.
Definition IMPULSE_RADIUS : Q := 0.2.
Definition IMPULSE_STRENGTH : Q := 5.
Definition SHAKE_DECAY_PER_SEC : Q := 1.

(** ** The JavaScript runtime *)

Class Math := {
  Math_PI : Q;
  Math_sin : Q -> Q;
  Math_cos : Q -> Q;
  Math_acos : Q -> Q;
  Math_sqrt : Q -> Q;
  Math_random : nat -> Q
}.

Definition Math_max (x y : Q) : Q := Qmax x y.
Definition Math_min (x y : Q) : Q := Qmin x y.

(** [x < y] and [x >= y] as the source tests them. *)
Definition Qltb (x y : Q) : bool := negb (Qle_bool y x).
Definition Qgeb (x y : Q) : bool := Qle_bool y x.

(** [Math.random()] returns a value in [[0, 1)]. *)
Definition random_in_range (M : Math) : Prop :=
  forall n : nat, 0 <= Math_random n /\ Math_random n < 1.

(** [Math.sqrt] is exact at [x]. *)
Definition sqrt_exact_at (M : Math) (x : Q) : Prop :=
  0 <= Math_sqrt x /\ Math_sqrt x * Math_sqrt x == x.

(** ** Typed arrays

    A [Float32Array] of fixed length: reading inside the bounds returns the
    cell, writing outside the bounds is ignored.  Every index the source
    uses is inside the bounds (see [wf] below), so the default of [rd] is
    never returned. *)

Definition rd (a : list Q) (i : nat) : Q := default 0 (a !! i).
Definition wr (a : list Q) (i : nat) (v : Q) : list Q := <[i := v]> a.

(** ** State *)

Record vec3 := Vec3 { vx : Q; vy : Q; vz : Q }.

Record buffers := Buffers {
  positions : list Q;
  velocities : list Q;
  ages : list Q;
  lifetimes : list Q;
  sizes : list Q;
  alphas : list Q
}.

(** The [needsUpdate] flags of the geometry's three attributes;
    [getAttribute] may return [undefined]. *)
Record geometry := Geometry {
  position_needsUpdate : bool;
  aSize_needsUpdate : option bool;
  aAlpha_needsUpdate : option bool
}.

Record engine := Engine {
  buf : buffers;
  geometryRef : option geometry;
  baseCamPosRef : option vec3;
  shakeMagnitudeRef : Q;
  isInitialRef : bool;
  camera_position : vec3;
  random_calls : nat
}.

(** ** Initialisation (lines 104-137) *)

Definition init_buffers : buffers :=
  {| positions := replicate (PARTICLE_CAPACITY * 3) 1e6;
     velocities := replicate (PARTICLE_CAPACITY * 3) 0;
     ages := map (fun i => inject_Z (Z.of_nat i)) (seq 0 PARTICLE_CAPACITY);
     lifetimes := replicate PARTICLE_CAPACITY 0;
     sizes := replicate PARTICLE_CAPACITY 0;
     alphas := replicate PARTICLE_CAPACITY 0 |}.

(** The state at mount: the geometry is attached with clean attributes, the
    camera is where the [Canvas] puts it ([position: [0, 0, 5]]). *)
Definition init : engine :=
  {| buf := init_buffers;
     geometryRef := Some (Geometry false (Some false) (Some false));
     baseCamPosRef := None;
     shakeMagnitudeRef := 0;
     isInitialRef := true;
     camera_position := Vec3 0 0 5;
     random_calls := 0 |}.

(** ** [spawnBurst] (lines 147-225) *)

Definition randomBetween `{Math} (min max : Q) (k : nat) : Q :=
  min + Math_random k * (max - min).

(** Lines 160-182: slot [i] is initialised again; the seven calls to
    [Math.random()] are the calls number [k], ..., [k + 6]. *)
Definition respawn `{Math} (i k : nat) (b : buffers) : buffers :=
  let base := (i * 3)%nat in
  let ps := wr (positions b) (base + 0) ((Math_random k - 0.5) * 0.02) in
  let ps := wr ps (base + 1) ((Math_random (k + 1) - 0.5) * 0.02) in
  let ps := wr ps (base + 2) 0 in
  let theta := Math_random (k + 2) * Math_PI * 2 in
  let phi := Math_acos (2 * Math_random (k + 3) - 1) in
  let dirX := Math_sin phi * Math_cos theta in
  let dirY := Math_sin phi * Math_sin theta in
  let dirZ := Math_cos phi in
  let speed := randomBetween SPEED_MIN SPEED_MAX (k + 4) in
  let vs := wr (velocities b) (base + 0) (dirX * speed) in
  let vs := wr vs (base + 1) (dirY * speed) in
  let vs := wr vs (base + 2) (dirZ * speed) in
  {| positions := ps;
     velocities := vs;
     ages := wr (ages b) i 0;
     lifetimes :=
       wr (lifetimes b) i
          (LIFETIME_MIN + Math_random (k + 5) * (LIFETIME_MAX - LIFETIME_MIN));
     sizes := wr (sizes b) i (6 + Math_random (k + 6) * 10);
     alphas := wr (alphas b) i 1 |}.

(** Lines 186-206: the shock wave on slot [i]. *)
Definition impulse `{Math} (i : nat) (b : buffers) : buffers :=
  let base := (i * 3)%nat in
  if Qltb (rd (ages b) i) (rd (lifetimes b) i) then
    let x := rd (positions b) (base + 0) in
    let y := rd (positions b) (base + 1) in
    let z := rd (positions b) (base + 2) in
    let dist2 := x * x + y * y + z * z in
    let r2 := IMPULSE_RADIUS * IMPULSE_RADIUS in
    if Qltb dist2 r2 then
      let dist := Math_max 0.0001 (Math_sqrt dist2) in
      let falloff := 1 - dist / IMPULSE_RADIUS in
      let strength := IMPULSE_STRENGTH * falloff in
      let nx := x / dist in
      let ny := y / dist in
      let nz := z / dist in
      let vs := velocities b in
      let vs := wr vs (base + 0) (rd vs (base + 0) + nx * strength) in
      let vs := wr vs (base + 1) (rd vs (base + 1) + ny * strength) in
      let vs := wr vs (base + 2) (rd vs (base + 2) + nz * strength) in
      {| positions := positions b;
         velocities := vs;
         ages := ages b;
         lifetimes := lifetimes b;
         sizes := sizes b;
         alphas := alphas b |}
    else b
  else b.

(** The state of the loop of lines 156-207: the arrays, the counter
    [spawned] and the number of calls to [Math.random()]. *)
Record spawn_state := SpawnState {
  sp_buf : buffers;
  sp_spawned : nat;
  sp_calls : nat
}.

(** One iteration of the loop, at index [i]. *)
Definition spawn_body `{Math} (st : spawn_state) (i : nat) : spawn_state :=
  let st1 :=
    if (sp_spawned st <? BURST_PARTICLE_COUNT)%nat
       && Qgeb (rd (ages (sp_buf st)) i) (rd (lifetimes (sp_buf st)) i)
    then SpawnState (respawn i (sp_calls st) (sp_buf st))
                    (S (sp_spawned st)) (sp_calls st + 7)
    else st in
  SpawnState (impulse i (sp_buf st1)) (sp_spawned st1) (sp_calls st1).

Definition spawn_loop `{Math} (n : nat) (st : spawn_state) : spawn_state :=
  fold_left spawn_body (seq 0 n) st.

(** Lines 209-221 and 279-291: the three attributes are marked for upload. *)
Definition mark_dirty (g : geometry) : geometry :=
  {| position_needsUpdate := true;
     aSize_needsUpdate := (fun _ => true) <$> aSize_needsUpdate g;
     aAlpha_needsUpdate := (fun _ => true) <$> aAlpha_needsUpdate g |}.

Definition modifier_keys : list string :=
  ["Alt"; "Control"; "Meta"; "Shift"]%string.

Definition is_modifier (stroke : string) : bool :=
  existsb (String.eqb stroke) modifier_keys.

(** Lines 148-152: [!trigger || [...].includes(trigger.stroke)]. *)
Definition ignored (trigger : option string) : bool :=
  match trigger with
  | None => true
  | Some stroke => is_modifier stroke
  end.

Definition spawnBurst `{Math} (trigger : option string) (e : engine) : engine :=
  if ignored trigger then e
  else
    let st := spawn_loop PARTICLE_CAPACITY (SpawnState (buf e) 0 (random_calls e)) in
    {| buf := sp_buf st;
       geometryRef := mark_dirty <$> geometryRef e;
       baseCamPosRef := baseCamPosRef e;
       shakeMagnitudeRef := Math_max (shakeMagnitudeRef e) 0.12;
       isInitialRef := isInitialRef e;
       camera_position := camera_position e;
       random_calls := sp_calls st |}.

(** Lines 138-228: the effect run at mount and at every change of
    [trigger]; the first run only clears [isInitialRef]. *)
Definition triggerEffect `{Math} (trigger : option string) (e : engine) : engine :=
  if isInitialRef e then
    {| buf := buf e;
       geometryRef := geometryRef e;
       baseCamPosRef := baseCamPosRef e;
       shakeMagnitudeRef := shakeMagnitudeRef e;
       isInitialRef := false;
       camera_position := camera_position e;
       random_calls := random_calls e |}
  else spawnBurst trigger e.

(** ** [useFrame] (lines 230-313) *)

(** Lines 241-266: velocity, position, age, alpha and size of the alive
    slot [i]; [age] and [life] are the values read at lines 233-234. *)
Definition integrate (delta : Q) (i : nat) (b : buffers) : buffers :=
  let life := rd (lifetimes b) i in
  let age := rd (ages b) i in
  let base := (i * 3)%nat in
  let vs := velocities b in
  let vs := wr vs (base + 0) (rd vs (base + 0) * VELOCITY_DAMPING) in
  let vs := wr vs (base + 1) (rd vs (base + 1) * VELOCITY_DAMPING + GRAVITY * delta) in
  let vs := wr vs (base + 2) (rd vs (base + 2) * VELOCITY_DAMPING) in
  let ps := positions b in
  let ps := wr ps (base + 0) (rd ps (base + 0) + rd vs (base + 0) * delta) in
  let ps := wr ps (base + 1) (rd ps (base + 1) + rd vs (base + 1) * delta) in
  let ps := wr ps (base + 2) (rd ps (base + 2) + rd vs (base + 2) * delta) in
  let ags := wr (ages b) i (age + delta) in
  let t := Math_min 1 (rd ags i / Math_max 0.0001 life) in
  let oneMinusT := 1 - t in
  let als := wr (alphas b) i (oneMinusT * oneMinusT) in
  let szs :=
    if Qltb age 0.06 then wr (sizes b) i (rd (sizes b) i * 1.04)
    else wr (sizes b) i (rd (sizes b) i * 0.999) in
  {| positions := ps;
     velocities := vs;
     ages := ags;
     lifetimes := lifetimes b;
     sizes := szs;
     alphas := als |}.

(** Lines 268-275: a slot whose new age has reached [life] is retired. *)
Definition retire (life : Q) (i : nat) (b : buffers) : buffers :=
  let base := (i * 3)%nat in
  if Qgeb (rd (ages b) i) life then
    let ps := wr (positions b) (base + 0) 1e6 in
    let ps := wr ps (base + 1) 1e6 in
    let ps := wr ps (base + 2) 1e6 in
    {| positions := ps;
       velocities := velocities b;
       ages := ages b;
       lifetimes := lifetimes b;
       sizes := wr (sizes b) i 0;
       alphas := wr (alphas b) i 0 |}
  else b.

(** One iteration of the loop of lines 232-277, with the flag [anyAlive]. *)
Definition frame_body (delta : Q) (st : buffers * bool) (i : nat) : buffers * bool :=
  let life := rd (lifetimes (fst st)) i in
  let age := rd (ages (fst st)) i in
  if Qltb age life then (retire life i (integrate delta i (fst st)), true)
  else st.

Definition frame_loop (delta : Q) (n : nat) (st : buffers * bool) : buffers * bool :=
  fold_left (frame_body delta) (seq 0 n) st.

(** Lines 300-304: the shaken camera position; three calls to
    [Math.random()], numbers [k], [k + 1] and [k + 2]. *)
Definition shaken `{Math} (base : vec3) (mag : Q) (k : nat) : vec3 :=
  Vec3 (vx base + (Math_random k - 0.5) * 2 * mag)
       (vy base + (Math_random (k + 1) - 0.5) * 2 * mag * 0.8)
       (vz base + (Math_random (k + 2) - 0.5) * 2 * mag * 0.3).

Definition useFrame `{Math} (delta : Q) (e : engine) : engine :=
  let st := frame_loop delta PARTICLE_CAPACITY (buf e, false) in
  let g := if snd st then mark_dirty <$> geometryRef e else geometryRef e in
  let base := default (camera_position e) (baseCamPosRef e) in
  let mag := shakeMagnitudeRef e in
  if Qltb 0 mag then
    let mag' := Math_max 0 (mag - SHAKE_DECAY_PER_SEC * delta) in
    {| buf := fst st;
       geometryRef := g;
       baseCamPosRef := Some base;
       shakeMagnitudeRef := mag';
       isInitialRef := isInitialRef e;
       camera_position :=
         if Qeq_bool mag' 0 then base else shaken base mag (random_calls e);
       random_calls := (random_calls e + 3)%nat |}
  else
    {| buf := fst st;
       geometryRef := g;
       baseCamPosRef := Some base;
       shakeMagnitudeRef := mag;
       isInitialRef := isInitialRef e;
       camera_position := camera_position e;
       random_calls := random_calls e |}.

(** A run of frames, one [delta] each. *)
Definition frames `{Math} (deltas : list Q) (e : engine) : engine :=
  fold_left (fun e delta => useFrame delta e) deltas e.

(** ** Slots

    The arrays are read one particle at a time: [slot b i] gathers the
    cells of particle [i].  The functions below are the bodies of the two
    loops on one particle; the lemmas [slot_frame_loop] and
    [slot_spawn_loop] prove that the loops over the arrays compute them. *)

Record particle := Particle {
  p_position : vec3;
  p_velocity : vec3;
  p_age : Q;
  p_lifetime : Q;
  p_size : Q;
  p_alpha : Q
}.

Definition slot (b : buffers) (i : nat) : particle :=
  {| p_position :=
       Vec3 (rd (positions b) (i * 3 + 0)) (rd (positions b) (i * 3 + 1))
            (rd (positions b) (i * 3 + 2));
     p_velocity :=
       Vec3 (rd (velocities b) (i * 3 + 0)) (rd (velocities b) (i * 3 + 1))
            (rd (velocities b) (i * 3 + 2));
     p_age := rd (ages b) i;
     p_lifetime := rd (lifetimes b) i;
     p_size := rd (sizes b) i;
     p_alpha := rd (alphas b) i |}.

(** The arrays have the length they are allocated with. *)
Definition sized (n : nat) (b : buffers) : Prop :=
  length (positions b) = (n * 3)%nat /\ length (velocities b) = (n * 3)%nat /\
  length (ages b) = n /\ length (lifetimes b) = n /\
  length (sizes b) = n /\ length (alphas b) = n.

Definition wf (e : engine) : Prop := sized PARTICLE_CAPACITY (buf e).

(** A particle is alive iff [age < lifetime], dead iff [age >= lifetime]. *)
Definition alive (p : particle) : bool := Qltb (p_age p) (p_lifetime p).
Definition dead (p : particle) : bool := Qgeb (p_age p) (p_lifetime p).

Definition sentinel : vec3 := Vec3 1e6 1e6 1e6.

(** [integrate] on one particle. *)
Definition integrate_slot (delta : Q) (p : particle) : particle :=
  let v := p_velocity p in
  let v' := Vec3 (vx v * VELOCITY_DAMPING)
                 (vy v * VELOCITY_DAMPING + GRAVITY * delta)
                 (vz v * VELOCITY_DAMPING) in
  let x := p_position p in
  let t := Math_min 1 ((p_age p + delta) / Math_max 0.0001 (p_lifetime p)) in
  {| p_position :=
       Vec3 (vx x + vx v' * delta) (vy x + vy v' * delta) (vz x + vz v' * delta);
     p_velocity := v';
     p_age := p_age p + delta;
     p_lifetime := p_lifetime p;
     p_size :=
       if Qltb (p_age p) 0.06 then p_size p * 1.04 else p_size p * 0.999;
     p_alpha := (1 - t) * (1 - t) |}.

(** [retire] on one particle. *)
Definition retire_slot (p : particle) : particle :=
  if Qgeb (p_age p) (p_lifetime p) then
    {| p_position := sentinel;
       p_velocity := p_velocity p;
       p_age := p_age p;
       p_lifetime := p_lifetime p;
       p_size := 0;
       p_alpha := 0 |}
  else p.

(** [frame_body] on one particle. *)
Definition step_slot (delta : Q) (p : particle) : particle :=
  if alive p then retire_slot (integrate_slot delta p) else p.

(** [respawn] on one particle. *)
Definition respawn_slot `{Math} (k : nat) : particle :=
  let theta := Math_random (k + 2) * Math_PI * 2 in
  let phi := Math_acos (2 * Math_random (k + 3) - 1) in
  let speed := randomBetween SPEED_MIN SPEED_MAX (k + 4) in
  {| p_position :=
       Vec3 ((Math_random k - 0.5) * 0.02) ((Math_random (k + 1) - 0.5) * 0.02) 0;
     p_velocity :=
       Vec3 (Math_sin phi * Math_cos theta * speed)
            (Math_sin phi * Math_sin theta * speed)
            (Math_cos phi * speed);
     p_age := 0;
     p_lifetime :=
       LIFETIME_MIN + Math_random (k + 5) * (LIFETIME_MAX - LIFETIME_MIN);
     p_size := 6 + Math_random (k + 6) * 10;
     p_alpha := 1 |}.

(** The squared distance of a particle from the origin. *)
Definition dist2_of (p : particle) : Q :=
  let x := p_position p in vx x * vx x + vy x * vy x + vz x * vz x.

(** The velocity added by the shock wave to a particle at [x] whose
    squared distance from the origin is below the squared radius. *)
Definition impulse_gain `{Math} (x : vec3) : vec3 :=
  let dist2 := vx x * vx x + vy x * vy x + vz x * vz x in
  let dist := Math_max 0.0001 (Math_sqrt dist2) in
  let strength := IMPULSE_STRENGTH * (1 - dist / IMPULSE_RADIUS) in
  Vec3 (vx x / dist * strength) (vy x / dist * strength) (vz x / dist * strength).

(** [impulse] on one particle. *)
Definition impulse_slot `{Math} (p : particle) : particle :=
  if alive p then
    if Qltb (dist2_of p) (IMPULSE_RADIUS * IMPULSE_RADIUS) then
      let v := p_velocity p in
      let g := impulse_gain (p_position p) in
      {| p_position := p_position p;
         p_velocity := Vec3 (vx v + vx g) (vy v + vy g) (vz v + vz g);
         p_age := p_age p;
         p_lifetime := p_lifetime p;
         p_size := p_size p;
         p_alpha := p_alpha p |}
    else p
  else p.

(** The number of indices below [n] at which [f] holds. *)
Fixpoint count_upto (f : nat -> bool) (n : nat) : nat :=
  match n with
  | O => O
  | S m => (count_upto f m + (if f m then 1 else 0))%nat
  end.

(** The number of dead slots below [i]. *)
Definition dead_below (b : buffers) (i : nat) : nat :=
  count_upto (fun j => dead (slot b j)) i.

(** Slot [i] is initialised again by a spawn pass over [b]: it is dead and
    the budget is not used up by the dead slots before it. *)
Definition reinitialised (b : buffers) (i : nat) : bool :=
  dead (slot b i) && (dead_below b i <? BURST_PARTICLE_COUNT)%nat.

(** [spawn_body] on one particle of a pass that starts from [b] after [k0]
    calls to [Math.random()]. *)
Definition spawn_slot `{Math} (k0 : nat) (b : buffers) (i : nat) : particle :=
  if reinitialised b i then impulse_slot (respawn_slot (k0 + 7 * dead_below b i))
  else impulse_slot (slot b i).

(** The squared length of a vector. *)
Definition norm2 (v : vec3) : Q := vx v * vx v + vy v * vy v + vz v * vz v.

(** The difference of two vectors. *)
Definition vsub (u v : vec3) : vec3 :=
  Vec3 (vx u - vx v) (vy u - vy v) (vz u - vz v).

(** Equality of vectors up to the representation of the rationals. *)
Definition veq (u v : vec3) : Prop :=
  vx u == vx v /\ vy u == vy v /\ vz u == vz v.

(** The sum of the frame times of a run. *)
Definition elapsed (deltas : list Q) : Q := fold_right Qplus 0 deltas.

(** ** Reachable states *)

Inductive reachable `{Math} : engine -> Prop :=
| reach_init : reachable init
| reach_effect trigger e : reachable e -> reachable (triggerEffect trigger e)
| reach_spawn trigger e : reachable e -> reachable (spawnBurst trigger e)
| reach_frame delta e : reachable e -> reachable (useFrame delta e).

(** ** A runtime to run the model

    Rational stand-ins for the library functions, to evaluate the model on
    concrete inputs, all rounded down to eight decimals: a square root, the
    series of sine and cosine after reduction of the argument to
    [[-PI, PI]], and a polynomial approximation of the arc cosine.  No
    theorem depends on them. *)

Definition decimal_PI : Q := 3.14159265.

Definition decimals (x : Q) : Q := Qred (inject_Z (Qfloor (x * 1e8)) / 1e8).

Definition decimal_sqrt (x : Q) : Q :=
  Qred (inject_Z (Z.sqrt (Qfloor (x * 1e16))) / 1e8).

(** [1 - y2/d1 * (1 - y2/d2 * (...))]. *)
Fixpoint nested_series (y2 : Q) (divisors : list Q) : Q :=
  match divisors with
  | [] => 1
  | d :: rest => decimals (1 - y2 / d * nested_series y2 rest)
  end.

Definition reduce_angle (x : Q) : Q :=
  decimals (x - inject_Z (Qfloor (x / (2 * decimal_PI) + 0.5)) * (2 * decimal_PI)).

Definition series_sin (x : Q) : Q :=
  let y := reduce_angle x in
  decimals (y * nested_series (decimals (y * y)) [6; 20; 42; 72; 110; 156; 210]).

Definition series_cos (x : Q) : Q :=
  let y := reduce_angle x in
  nested_series (decimals (y * y)) [2; 12; 30; 56; 90; 132; 182].

Definition poly_acos (x : Q) : Q :=
  let a := decimals (Qabs x) in
  let r :=
    decimal_sqrt (1 - a)
    * (1.5707288 + a * (-0.2121144 + a * (0.0742610 + a * -0.0187293))) in
  decimals (if Qltb x 0 then decimal_PI - r else r).

Definition run_math (random : nat -> Q) : Math :=
  {| Math_PI := decimal_PI;
     Math_sin := series_sin;
     Math_cos := series_cos;
     Math_acos := poly_acos;
     Math_sqrt := decimal_sqrt;
     Math_random := random |}.

(** [Math.random()] always returns one half: particles spawn at the origin. *)
Definition half_math : Math := run_math (fun _ => 0.5).

(** [Math.random()] cycles through 0.0, 0.3, 0.6, 0.9, 0.2, ... *)
Definition cycle_math : Math :=
  run_math (fun n => inject_Z (Z.of_nat n * 3 mod 10) / 10).

(** The pool after the first key stroke ["a"], for both runtimes. *)
Definition first_burst (M : Math) : engine := @spawnBurst M (Some "a"%string) init.

(** [Math.random()] returns 0.5025 first and one half afterwards: the first
    particle spawns at (0.00005, 0, 0). *)
Definition near_math : Math :=
  run_math (fun n => if Nat.eqb n 0 then 0.5025 else 0.5).

(** ** The particle the shock wave sees

    Slot [i] when the pass reaches line 186: initialised again at lines
    160-182, or as it was before the pass. *)
Definition before_impulse `{Math} (k0 : nat) (b : buffers) (i : nat) : particle :=
  if reinitialised b i then respawn_slot (k0 + 7 * dead_below b i)
  else slot b i.

(** The shock wave as the specification words it, on slot [i] of a pass
    run from [e]: an alive particle at distance [d] below the radius gains
    a velocity of magnitude [IMPULSE_STRENGTH * (1 - d / IMPULSE_RADIUS)]. *)
Definition gain_as_specified (M : Math) (e : engine) (i : nat) : Prop :=
  let q := before_impulse (random_calls e) (buf e) i in
  let p' := slot (buf (spawnBurst (Some "a"%string) e)) i in
  let d := Math_sqrt (dist2_of q) in
  let s := IMPULSE_STRENGTH * (1 - d / IMPULSE_RADIUS) in
  alive q = true -> d < IMPULSE_RADIUS ->
  norm2 (vsub (p_velocity p') (p_velocity q)) == s * s.

(** The size easing as the specification words it, on slot [i] of the
    frame run from [e]: the age is advanced first, and the advanced age
    chooses the factor. *)
Definition size_as_specified (M : Math) (e : engine) (delta : Q) (i : nat) : Prop :=
  let p := slot (buf e) i in
  let p' := slot (buf (useFrame delta e)) i in
  alive p = true -> alive p' = true ->
  p_size p' == p_size p * (if Qltb (p_age p') 0.06 then 1.04 else 0.999).

(** ** Runs, counts and ranges *)


(** What the host sends to the component: a run of the trigger effect, or
    a rendered frame with its frame time. *)
Inductive event :=
| Effect (trigger : option string)
| Frame (delta : Q).

Definition handle `{Math} (e : engine) (ev : event) : engine :=
  match ev with
  | Effect trigger => triggerEffect trigger e
  | Frame delta => useFrame delta e
  end.

Definition run `{Math} (events : list event) (e : engine) : engine :=
  fold_left handle events e.

(** Frame times are not negative. *)
Definition forward (ev : event) : Prop :=
  match ev with
  | Effect _ => True
  | Frame delta => 0 <= delta
  end.

(** The ranges of the attributes of one particle. *)
Definition in_ranges (p : particle) : Prop :=
  0 <= p_age p /\ 0 <= p_alpha p /\ p_alpha p <= 1 /\ 0 <= p_size p.

(** The number of alive slots of the pool. *)
Definition alive_count (e : engine) : nat :=
  count_upto (fun i => alive (slot (buf e) i)) PARTICLE_CAPACITY.

(** [n] key strokes in a row, with no frame in between. *)
Fixpoint bursts `{Math} (n : nat) (stroke : string) (e : engine) : engine :=
  match n with
  | O => e
  | S m => spawnBurst (Some stroke) (bursts m stroke e)
  end.

(** The fade of an alive particle: alpha is [(1 - age/lifetime)^2]. *)
Definition faded (p : particle) : Prop :=
  alive p = true ->
  0.8 <= p_lifetime p /\ p_alpha p == (1 - p_age p / p_lifetime p) ^ 2.

(** A runtime that draws like [cycle_math] for slot 5 of the first burst
    (calls 35 to 41) and returns one quarter everywhere else. *)
Definition patch_math : Math :=
  run_math (fun n => if (35 <=? n)%nat && (n <=? 41)%nat
                     then @Math_random cycle_math n else 0.25).

(** The pool of [e] under another camera, shake, geometry and count of
    calls to [Math.random()]. *)
Definition restaged (e : engine) : engine :=
  {| buf := buf e;
     geometryRef := None;
     baseCamPosRef := Some (Vec3 1 2 3);
     shakeMagnitudeRef := 0.05;
     isInitialRef := false;
     camera_position := Vec3 1.01 2 3;
     random_calls := 17 |}.

(** An engine that shares slot 5 with [first_burst cycle_math] and nothing
    else: other particles, no geometry, a shaking camera. *)
Definition other_engine : engine := restaged (first_burst patch_math).

(** ** The camera shake in double precision

    Lines 293-312 once more, with the JavaScript numbers as IEEE 754
    binary64 values ([spec_float] with 53 bits of precision): the shake
    magnitude, the frame time, the camera and base positions and the values
    of [Math.random()].  The particle loop does not touch these. *)

Module Double.

Definition double : Type := spec_float.

Definition prec : Z := 53.
Definition emax : Z := 1024.

Definition add (x y : double) : double := SFadd prec emax x y.
Definition sub (x y : double) : double := SFsub prec emax x y.
Definition mul (x y : double) : double := SFmul prec emax x y.
Definition div (x y : double) : double := SFdiv prec emax x y.

(** The double of an integer, and the double nearest to [n / d]. *)
Definition of_Z (n : Z) : double := binary_normalize prec emax n 0 false.
Definition of_ratio (n d : Z) : double := div (of_Z n) (of_Z d).

Definition zero : double := S754_zero false.



(** [x > y] and [x === y]. *)
Definition gtb (x y : double) : bool := SFltb y x.
Definition eqb (x y : double) : bool := SFeqb x y.

(** [Math.max(x, y)]: NaN if one argument is, and [+0] above [-0]. *)
Definition Math_max (x y : double) : double :=
  match SFcompare x y with
  | None => S754_nan
  | Some Lt => y
  | Some Gt => x
  | Some Eq => match x with S754_zero true => y | _ => x end
  end.

Record vec3 := Vec3 { vx : double; vy : double; vz : double }.

Record shake := Shake {
  shakeMagnitudeRef : double;
  baseCamPosRef : option vec3;
  camera_position : vec3;
  random_calls : nat
}.

Definition SHAKE_DECAY_PER_SEC : double := of_Z 1.

(** Lines 300-304. *)
Definition shaken (random : nat -> double) (base : vec3) (mag : double) (k : nat) : vec3 :=
  let half := of_ratio 1 2 in
  let two := of_Z 2 in
  Vec3 (add (vx base) (mul (mul (sub (random k) half) two) mag))
       (add (vy base)
            (mul (mul (mul (sub (random (k + 1)%nat) half) two) mag) (of_ratio 8 10)))
       (add (vz base)
            (mul (mul (mul (sub (random (k + 2)%nat) half) two) mag) (of_ratio 3 10))).

(** Lines 293-312. *)
Definition frame (random : nat -> double) (delta : double) (s : shake) : shake :=
  let base := default (camera_position s) (baseCamPosRef s) in
  let mag := shakeMagnitudeRef s in
  if gtb mag zero then
    let mag' := Math_max zero (sub mag (mul SHAKE_DECAY_PER_SEC delta)) in
    {| shakeMagnitudeRef := mag';
       baseCamPosRef := Some base;
       camera_position :=
         if eqb mag' zero then base else shaken random base mag (random_calls s);
       random_calls := (random_calls s + 3)%nat |}
  else
    {| shakeMagnitudeRef := mag;
       baseCamPosRef := Some base;
       camera_position := camera_position s;
       random_calls := random_calls s |}.

Definition frames (random : nat -> double) (deltas : list double) (s : shake) : shake :=
  fold_left (fun s delta => frame random delta s) deltas s.


(** The shake is over. *)
Definition settled (s : shake) (base : vec3) : Prop :=
  shakeMagnitudeRef s = zero /\ baseCamPosRef s = Some base /\
  camera_position s = base.



End Double.

(** ** Predicates on particles and engines *)

(** A dead particle is invisible: alpha 0, size 0, at the sentinel. *)
Definition pinned (p : particle) : Prop :=
  dead p = true ->
  p_alpha p = 0 /\ p_size p = 0 /\ p_position p = sentinel.

(** An alive particle has the lifetime it was spawned with. *)
Definition spawned_lifetime (p : particle) : Prop :=
  alive p = true -> 0.8 <= p_lifetime p /\ p_lifetime p < 1.6.

(** The shake is over: magnitude 0 and the camera at its base position. *)
Definition settled (e : engine) (base : vec3) : Prop :=
  shakeMagnitudeRef e == 0 /\
  baseCamPosRef e = Some base /\
  camera_position e = base.

(** ** Comparisons *)

Lemma Qltb_lt (x y : Q) : Qltb x y = true <-> x < y.
Proof.
  unfold Qltb. rewrite negb_true_iff, <- not_true_iff_false, Qle_bool_iff.
  split; [apply Qnot_le_lt | apply Qlt_not_le].
Qed.

Lemma Qltb_ge (x y : Q) : Qltb x y = false <-> y <= x.
Proof. unfold Qltb. rewrite negb_false_iff. apply Qle_bool_iff. Qed.

Lemma Qgeb_le (x y : Q) : Qgeb x y = true <-> y <= x.
Proof. apply Qle_bool_iff. Qed.

Lemma Qgeb_lt (x y : Q) : Qgeb x y = false <-> x < y.
Proof.
  unfold Qgeb. rewrite <- not_true_iff_false, Qle_bool_iff.
  split; [apply Qnot_le_lt | apply Qlt_not_le].
Qed.

Lemma alive_not_dead (p : particle) : alive p = negb (dead p).
Proof. reflexivity. Qed.

Lemma alive_lt (p : particle) : alive p = true <-> p_age p < p_lifetime p.
Proof. apply Qltb_lt. Qed.

Lemma dead_ge (p : particle) : dead p = true <-> p_lifetime p <= p_age p.
Proof. apply Qgeb_le. Qed.

Lemma dead_not_alive (p : particle) : dead p = true -> alive p = false.
Proof. rewrite alive_not_dead. intros ->. reflexivity. Qed.

Lemma alive_false_dead (p : particle) : alive p = false -> dead p = true.
Proof. rewrite alive_not_dead. apply negb_false_iff. Qed.

(** ** Typed arrays *)

Lemma rd_wr_eq (a : list Q) (i : nat) (v : Q) :
  (i < length a)%nat -> rd (wr a i v) i = v.
Proof. intros Hi. unfold rd, wr. rewrite list_lookup_insert_eq; done. Qed.

Lemma rd_wr_ne (a : list Q) (i j : nat) (v : Q) :
  i <> j -> rd (wr a i v) j = rd a j.
Proof. intros Hne. unfold rd, wr. rewrite list_lookup_insert_ne; done. Qed.

Lemma length_wr (a : list Q) (i : nat) (v : Q) : length (wr a i v) = length a.
Proof. apply length_insert. Qed.

Lemma rd_replicate (n i : nat) (v : Q) : (i < n)%nat -> rd (replicate n v) i = v.
Proof. intros Hi. unfold rd. rewrite lookup_replicate_2; done. Qed.

(** Rewrites reads after writes; the side conditions are linear. *)
Ltac arr :=
  repeat first
    [ rewrite length_wr
    | rewrite rd_wr_eq by (rewrite ?length_wr; lia)
    | rewrite rd_wr_ne by lia ].

Ltac sized_destruct H :=
  let Hp := fresh "Hlp" in let Hv := fresh "Hlv" in
  let Ha := fresh "Hla" in let Hl := fresh "Hll" in
  let Hs := fresh "Hls" in let Hal := fresh "Hlal" in
  destruct H as (Hp & Hv & Ha & Hl & Hs & Hal).

(** ** The frame loop on one slot *)

Lemma sized_integrate (n : nat) (delta : Q) (i : nat) (b : buffers) :
  sized n b -> sized n (integrate delta i b).
Proof.
  intros Hb. sized_destruct Hb. unfold sized, integrate. cbn.
  destruct (Qltb (rd (ages b) i) 0.06); arr; repeat split; assumption.
Qed.

Lemma sized_retire (n : nat) (life : Q) (i : nat) (b : buffers) :
  sized n b -> sized n (retire life i b).
Proof.
  intros Hb. unfold retire. destruct (Qgeb _ _); [|exact Hb].
  sized_destruct Hb. unfold sized. cbn. arr. repeat split; assumption.
Qed.

Lemma slot_integrate_eq (n : nat) (delta : Q) (i : nat) (b : buffers) :
  sized n b -> (i < n)%nat ->
  slot (integrate delta i b) i = integrate_slot delta (slot b i).
Proof.
  intros Hb Hi. sized_destruct Hb.
  unfold slot, integrate, integrate_slot. cbn.
  destruct (Qltb (rd (ages b) i) 0.06); arr; reflexivity.
Qed.

Lemma slot_integrate_ne (delta : Q) (i j : nat) (b : buffers) :
  i <> j -> slot (integrate delta i b) j = slot b j.
Proof.
  intros Hne. unfold slot, integrate. cbn.
  destruct (Qltb (rd (ages b) i) 0.06); arr; reflexivity.
Qed.

Lemma slot_retire_eq (n : nat) (i : nat) (b : buffers) :
  sized n b -> (i < n)%nat ->
  slot (retire (p_lifetime (slot b i)) i b) i = retire_slot (slot b i).
Proof.
  intros Hb Hi. sized_destruct Hb.
  unfold retire, retire_slot. cbn [slot p_age p_lifetime].
  destruct (Qgeb (rd (ages b) i) (rd (lifetimes b) i)); [|reflexivity].
  unfold slot, sentinel. cbn. arr. reflexivity.
Qed.

Lemma slot_retire_ne (life : Q) (i j : nat) (b : buffers) :
  i <> j -> slot (retire life i b) j = slot b j.
Proof.
  intros Hne. unfold retire. destruct (Qgeb _ _); [|reflexivity].
  unfold slot. cbn. arr. reflexivity.
Qed.

Lemma sized_frame_body (n : nat) (delta : Q) (st : buffers * bool) (i : nat) :
  sized n (fst st) -> sized n (fst (frame_body delta st i)).
Proof.
  intros Hb. unfold frame_body. destruct (Qltb _ _); [|exact Hb].
  cbn [fst]. apply sized_retire, sized_integrate, Hb.
Qed.

Lemma slot_frame_body_eq (n : nat) (delta : Q) (st : buffers * bool) (i : nat) :
  sized n (fst st) -> (i < n)%nat ->
  slot (fst (frame_body delta st i)) i = step_slot delta (slot (fst st) i).
Proof.
  intros Hb Hi. unfold frame_body, step_slot, alive. cbn [slot p_age p_lifetime].
  destruct (Qltb (rd (ages (fst st)) i) (rd (lifetimes (fst st)) i)); [|reflexivity].
  cbn [fst].
  assert (Hlife : rd (lifetimes (fst st)) i
                  = p_lifetime (slot (integrate delta i (fst st)) i)) by reflexivity.
  rewrite Hlife, (slot_retire_eq n) by (auto using sized_integrate).
  rewrite (slot_integrate_eq n) by assumption. reflexivity.
Qed.

Lemma slot_frame_body_ne (delta : Q) (st : buffers * bool) (i j : nat) :
  i <> j -> slot (fst (frame_body delta st i)) j = slot (fst st) j.
Proof.
  intros Hne. unfold frame_body. destruct (Qltb _ _); [|reflexivity].
  cbn [fst]. rewrite slot_retire_ne, slot_integrate_ne by assumption. reflexivity.
Qed.

Lemma frame_loop_S (delta : Q) (m : nat) (st : buffers * bool) :
  frame_loop delta (S m) st = frame_body delta (frame_loop delta m st) m.
Proof. unfold frame_loop. rewrite seq_S, fold_left_app. reflexivity. Qed.

(** The loop of [useFrame] after [m] iterations: the slots below [m] have
    made one step, the others are as before. *)
Lemma frame_loop_spec (n : nat) (delta : Q) (b : buffers) (flag : bool) (m : nat) :
  sized n b -> (m <= n)%nat ->
  sized n (fst (frame_loop delta m (b, flag))) /\
  (forall j, (j < m)%nat ->
     slot (fst (frame_loop delta m (b, flag))) j = step_slot delta (slot b j)) /\
  (forall j, (m <= j)%nat ->
     slot (fst (frame_loop delta m (b, flag))) j = slot b j).
Proof.
  intros Hb. induction m as [|m IH]; intros Hm.
  - split; [exact Hb | split; [intros j Hj; lia | intros j _; reflexivity]].
  - destruct IH as (Hs & Hlt & Hge); [lia|].
    rewrite frame_loop_S. split; [|split].
    + apply sized_frame_body, Hs.
    + intros j Hj. destruct (decide (j = m)) as [->|Hne].
      * rewrite (slot_frame_body_eq n) by (auto; lia). rewrite Hge by lia. reflexivity.
      * rewrite slot_frame_body_ne by lia. apply Hlt. lia.
    + intros j Hj. rewrite slot_frame_body_ne by lia. apply Hge. lia.
Qed.

Lemma buf_useFrame `{Math} (delta : Q) (e : engine) :
  buf (useFrame delta e) = fst (frame_loop delta PARTICLE_CAPACITY (buf e, false)).
Proof. unfold useFrame. destruct (Qltb 0 _); reflexivity. Qed.

Lemma wf_useFrame `{Math} (delta : Q) (e : engine) : wf e -> wf (useFrame delta e).
Proof.
  intros He. unfold wf. rewrite buf_useFrame.
  apply (frame_loop_spec PARTICLE_CAPACITY); [exact He | lia].
Qed.

(** One frame makes one step of every slot. *)
Lemma slot_useFrame `{Math} (delta : Q) (e : engine) (i : nat) :
  wf e -> (i < PARTICLE_CAPACITY)%nat ->
  slot (buf (useFrame delta e)) i = step_slot delta (slot (buf e) i).
Proof.
  intros He Hi. rewrite buf_useFrame.
  apply (frame_loop_spec PARTICLE_CAPACITY); [exact He | lia | exact Hi].
Qed.

(** ** The spawn loop on one slot *)

Lemma sized_respawn `{Math} (n i k : nat) (b : buffers) :
  sized n b -> sized n (respawn i k b).
Proof.
  intros Hb. sized_destruct Hb. unfold sized, respawn. cbn. arr.
  repeat split; assumption.
Qed.

Lemma sized_impulse `{Math} (n i : nat) (b : buffers) :
  sized n b -> sized n (impulse i b).
Proof.
  intros Hb. unfold impulse. destruct (Qltb _ _); [|exact Hb].
  destruct (Qltb _ _); [|exact Hb].
  sized_destruct Hb. unfold sized. cbn. arr. repeat split; assumption.
Qed.

Lemma slot_respawn_eq `{Math} (n i k : nat) (b : buffers) :
  sized n b -> (i < n)%nat -> slot (respawn i k b) i = respawn_slot k.
Proof.
  intros Hb Hi. sized_destruct Hb. unfold slot, respawn, respawn_slot. cbn.
  arr. reflexivity.
Qed.

Lemma slot_respawn_ne `{Math} (i j k : nat) (b : buffers) :
  i <> j -> slot (respawn i k b) j = slot b j.
Proof. intros Hne. unfold slot, respawn. cbn. arr. reflexivity. Qed.

Lemma slot_impulse_eq `{Math} (n i : nat) (b : buffers) :
  sized n b -> (i < n)%nat -> slot (impulse i b) i = impulse_slot (slot b i).
Proof.
  intros Hb Hi. sized_destruct Hb.
  unfold impulse, impulse_slot, alive, dist2_of. cbn [slot p_age p_lifetime p_position vx vy vz].
  destruct (Qltb (rd (ages b) i) (rd (lifetimes b) i)); [|reflexivity].
  destruct (Qltb _ _); [|reflexivity].
  unfold slot, impulse_gain. cbn. arr. reflexivity.
Qed.

Lemma slot_impulse_ne `{Math} (i j : nat) (b : buffers) :
  i <> j -> slot (impulse i b) j = slot b j.
Proof.
  intros Hne. unfold impulse. destruct (Qltb _ _); [|reflexivity].
  destruct (Qltb _ _); [|reflexivity].
  unfold slot. cbn. arr. reflexivity.
Qed.

Lemma sized_spawn_body `{Math} (n : nat) (st : spawn_state) (i : nat) :
  sized n (sp_buf st) -> sized n (sp_buf (spawn_body st i)).
Proof.
  intros Hb. unfold spawn_body. cbn [sp_buf]. apply sized_impulse.
  destruct (_ && _); [apply sized_respawn|]; exact Hb.
Qed.

Lemma slot_spawn_body_ne `{Math} (st : spawn_state) (i j : nat) :
  i <> j -> slot (sp_buf (spawn_body st i)) j = slot (sp_buf st) j.
Proof.
  intros Hne. unfold spawn_body. cbn [sp_buf]. rewrite slot_impulse_ne by assumption.
  destruct (_ && _); [apply slot_respawn_ne; assumption | reflexivity].
Qed.

Lemma spawn_loop_S `{Math} (m : nat) (st : spawn_state) :
  spawn_loop (S m) st = spawn_body (spawn_loop m st) m.
Proof. unfold spawn_loop. rewrite seq_S, fold_left_app. reflexivity. Qed.

Lemma dead_below_S (b : buffers) (m : nat) :
  dead_below b (S m) = (dead_below b m + (if dead (slot b m) then 1 else 0))%nat.
Proof. reflexivity. Qed.

(** The loop of [spawnBurst] after [m] iterations. *)
Lemma spawn_loop_spec `{Math} (n k0 : nat) (b : buffers) (m : nat) :
  sized n b -> (m <= n)%nat ->
  let st := spawn_loop m (SpawnState b 0 k0) in
  sized n (sp_buf st) /\
  sp_spawned st = Nat.min BURST_PARTICLE_COUNT (dead_below b m) /\
  sp_calls st = (k0 + 7 * sp_spawned st)%nat /\
  (forall j, (j < m)%nat -> slot (sp_buf st) j = spawn_slot k0 b j) /\
  (forall j, (m <= j)%nat -> slot (sp_buf st) j = slot b j).
Proof.
  intros Hb. induction m as [|m IH]; intros Hm.
  - cbn zeta. unfold spawn_loop. cbn [seq fold_left sp_buf sp_spawned sp_calls dead_below count_upto].
    split; [exact Hb|]. split; [lia|]. split; [lia|].
    split; [intros j Hj; lia | intros j _; reflexivity].
  - destruct IH as (Hs & Hsp & Hk & Hlt & Hge); [lia|].
    cbn zeta. rewrite spawn_loop_S.
    set (st := spawn_loop m (SpawnState b 0 k0)) in *.
    assert (Hbody : sp_spawned (spawn_body st m)
                    = Nat.min BURST_PARTICLE_COUNT (dead_below b (S m)) /\
                    sp_calls (spawn_body st m)
                    = (k0 + 7 * sp_spawned (spawn_body st m))%nat /\
                    slot (sp_buf (spawn_body st m)) m = spawn_slot k0 b m).
    { unfold spawn_body, spawn_slot, reinitialised. cbn [sp_buf sp_spawned sp_calls].
      assert (Hd : Qgeb (rd (ages (sp_buf st)) m) (rd (lifetimes (sp_buf st)) m)
                   = dead (slot b m)).
      { rewrite <- (Hge m) by lia. reflexivity. }
      rewrite Hd, dead_below_S, Hsp.
      destruct (dead (slot b m)).
      - destruct (Nat.ltb_spec (dead_below b m) BURST_PARTICLE_COUNT) as [Hc|Hc].
        + replace (Nat.min BURST_PARTICLE_COUNT (dead_below b m)) with (dead_below b m) by lia.
          assert (Hlt' : (dead_below b m <? BURST_PARTICLE_COUNT)%nat = true)
            by (apply Nat.ltb_lt; exact Hc).
          rewrite Hlt'. cbn [andb sp_buf sp_spawned sp_calls].
          split; [lia|]. split; [lia|].
          rewrite (slot_impulse_eq n) by (auto using sized_respawn; lia).
          rewrite (slot_respawn_eq n) by (auto; lia).
          rewrite Hk, Hsp.
          replace (Nat.min BURST_PARTICLE_COUNT (dead_below b m)) with (dead_below b m) by lia.
          reflexivity.
        + replace (Nat.min BURST_PARTICLE_COUNT (dead_below b m)) with BURST_PARTICLE_COUNT by lia.
          rewrite Nat.ltb_irrefl. cbn [andb sp_buf sp_spawned sp_calls].
          split; [lia|]. split; [lia|].
          rewrite (slot_impulse_eq n) by (auto; lia). rewrite Hge by lia. reflexivity.
      - rewrite !andb_false_r. cbn [sp_buf sp_spawned sp_calls].
        split; [rewrite Nat.add_0_r; exact Hsp|]. split; [exact Hk|].
        rewrite (slot_impulse_eq n) by (auto; lia). rewrite Hge by lia. reflexivity. }
    destruct Hbody as (Hsp' & Hk' & Hm').
    split; [apply sized_spawn_body, Hs|]. split; [exact Hsp'|]. split; [exact Hk'|].
    split.
    + intros j Hj. destruct (decide (j = m)) as [->|Hne]; [exact Hm'|].
      rewrite slot_spawn_body_ne by lia. apply Hlt. lia.
    + intros j Hj. rewrite slot_spawn_body_ne by lia. apply Hge. lia.
Qed.

(** ** [spawnBurst] on the engine *)

Lemma spawnBurst_ignored `{Math} (trigger : option string) (e : engine) :
  ignored trigger = true -> spawnBurst trigger e = e.
Proof. intros Hi. unfold spawnBurst. rewrite Hi. reflexivity. Qed.

Lemma buf_spawnBurst `{Math} (trigger : option string) (e : engine) :
  ignored trigger = false ->
  buf (spawnBurst trigger e)
  = sp_buf (spawn_loop PARTICLE_CAPACITY (SpawnState (buf e) 0 (random_calls e))).
Proof. intros Hi. unfold spawnBurst. rewrite Hi. reflexivity. Qed.

Lemma wf_spawnBurst `{Math} (trigger : option string) (e : engine) :
  wf e -> wf (spawnBurst trigger e).
Proof.
  intros He. destruct (ignored trigger) eqn:Hi.
  - rewrite spawnBurst_ignored by assumption. exact He.
  - unfold wf. rewrite buf_spawnBurst by assumption.
    apply (spawn_loop_spec PARTICLE_CAPACITY); [exact He | lia].
Qed.

(** One spawn pass that is not ignored makes [spawn_slot] of every slot. *)
Lemma slot_spawnBurst `{Math} (trigger : option string) (e : engine) (i : nat) :
  wf e -> ignored trigger = false -> (i < PARTICLE_CAPACITY)%nat ->
  slot (buf (spawnBurst trigger e)) i = spawn_slot (random_calls e) (buf e) i.
Proof.
  intros He Hi Hlt. rewrite buf_spawnBurst by assumption.
  apply (spawn_loop_spec PARTICLE_CAPACITY); [exact He | lia | exact Hlt].
Qed.

Lemma wf_triggerEffect `{Math} (trigger : option string) (e : engine) :
  wf e -> wf (triggerEffect trigger e).
Proof.
  intros He. unfold triggerEffect. destruct (isInitialRef e); [exact He|].
  apply wf_spawnBurst, He.
Qed.

Lemma wf_init : wf init.
Proof.
  unfold wf, sized, init, init_buffers. cbn [buf positions velocities ages lifetimes sizes alphas].
  rewrite !length_replicate, length_map, length_seq. repeat split; reflexivity.
Qed.

Lemma reachable_wf `{Math} (e : engine) : reachable e -> wf e.
Proof.
  induction 1;
    auto using wf_init, wf_triggerEffect, wf_spawnBurst, wf_useFrame.
Qed.

Lemma slot_init (i : nat) :
  (i < PARTICLE_CAPACITY)%nat ->
  slot init_buffers i
  = Particle sentinel (Vec3 0 0 0) (inject_Z (Z.of_nat i)) 0 0 0.
Proof.
  intros Hi. unfold slot, init_buffers. cbn [positions velocities ages lifetimes sizes alphas].
  rewrite !rd_replicate by lia.
  unfold rd. rewrite list_lookup_fmap, lookup_seq_lt by lia. reflexivity.
Qed.

(** ** Facts on one particle *)

Lemma respawn_slot_lifetime `{M : Math} (k : nat) :
  random_in_range M ->
  0.8 <= p_lifetime (respawn_slot k) /\ p_lifetime (respawn_slot k) < 1.6.
Proof.
  intros Hr. destruct (Hr (k + 5)%nat) as [H0 H1].
  unfold respawn_slot, LIFETIME_MIN, LIFETIME_MAX. cbn [p_lifetime].
  split; nra.
Qed.

Lemma respawn_slot_alive `{M : Math} (k : nat) :
  random_in_range M -> alive (respawn_slot k) = true.
Proof.
  intros Hr. apply alive_lt. pose proof (respawn_slot_lifetime k Hr) as [Hl _].
  change (p_age (respawn_slot k)) with 0. lra.
Qed.

Lemma impulse_slot_frame `{Math} (p : particle) :
  p_position (impulse_slot p) = p_position p /\
  p_age (impulse_slot p) = p_age p /\
  p_lifetime (impulse_slot p) = p_lifetime p /\
  p_size (impulse_slot p) = p_size p /\
  p_alpha (impulse_slot p) = p_alpha p.
Proof.
  unfold impulse_slot. destruct (alive p); [|repeat split].
  destruct (Qltb _ _); repeat split.
Qed.

Lemma alive_impulse_slot `{Math} (p : particle) :
  alive (impulse_slot p) = alive p.
Proof.
  unfold alive. destruct (impulse_slot_frame p) as (_ & -> & -> & _). reflexivity.
Qed.

Lemma dead_impulse_slot `{Math} (p : particle) :
  dead (impulse_slot p) = dead p.
Proof.
  unfold dead. destruct (impulse_slot_frame p) as (_ & -> & -> & _). reflexivity.
Qed.

Lemma impulse_slot_dead `{Math} (p : particle) :
  dead p = true -> impulse_slot p = p.
Proof. intros Hd. unfold impulse_slot. rewrite dead_not_alive by assumption. reflexivity. Qed.

Lemma step_slot_dead (delta : Q) (p : particle) :
  dead p = true -> step_slot delta p = p.
Proof. intros Hd. unfold step_slot. rewrite dead_not_alive by assumption. reflexivity. Qed.

Lemma pinned_retire_slot (p : particle) : pinned (retire_slot p).
Proof.
  unfold pinned, retire_slot, dead.
  destruct (Qgeb (p_age p) (p_lifetime p)) eqn:Hg.
  - cbn. auto.
  - rewrite Hg. discriminate.
Qed.

Lemma pinned_step_slot (delta : Q) (p : particle) :
  pinned p -> pinned (step_slot delta p).
Proof.
  intros Hp. unfold step_slot. destruct (alive p); [apply pinned_retire_slot | exact Hp].
Qed.

Lemma pinned_spawn_slot `{M : Math} (k0 : nat) (b : buffers) (i : nat) :
  random_in_range M -> pinned (slot b i) -> pinned (spawn_slot k0 b i).
Proof.
  intros Hr Hp. unfold spawn_slot. destruct (reinitialised b i).
  - intros Hd. rewrite dead_impulse_slot in Hd.
    apply dead_not_alive in Hd. rewrite respawn_slot_alive in Hd by assumption.
    discriminate.
  - intros Hd. rewrite dead_impulse_slot in Hd.
    rewrite impulse_slot_dead by assumption. apply Hp, Hd.
Qed.

(** ** Counting *)

Lemma count_upto_ext (f g : nat -> bool) (n : nat) :
  (forall i, (i < n)%nat -> f i = g i) -> count_upto f n = count_upto g n.
Proof.
  induction n as [|n IH]; intros Hfg; [reflexivity|].
  cbn. rewrite IH by (intros; apply Hfg; lia). rewrite Hfg by lia. reflexivity.
Qed.

Lemma count_upto_le (f : nat -> bool) (n : nat) : (count_upto f n <= n)%nat.
Proof. induction n as [|n IH]; cbn; [lia|]. destruct (f n); lia. Qed.

Lemma count_upto_all (f : nat -> bool) (n : nat) :
  count_upto f n = n <-> (forall i, (i < n)%nat -> f i = true).
Proof.
  induction n as [|n IH]; cbn.
  - split; [intros _ i Hi; lia | reflexivity].
  - pose proof (count_upto_le f n) as Hle. split.
    + intros Hc i Hi. destruct (f n) eqn:Hfn; [|lia].
      destruct (decide (i = n)) as [->|Hne]; [exact Hfn|].
      apply IH; lia.
    + intros Hall. rewrite (Hall n) by lia.
      assert (count_upto f n = n) by (apply IH; intros; apply Hall; lia). lia.
Qed.

(** Taking the first [budget] hits of [f] takes [min budget total] of them. *)
Lemma count_upto_budget (f : nat -> bool) (budget n : nat) :
  count_upto (fun i => f i && (count_upto f i <? budget)%nat) n
  = Nat.min budget (count_upto f n).
Proof.
  induction n as [|n IH]; cbn [count_upto]; [lia|].
  rewrite IH. destruct (f n); cbn [andb].
  - destruct (Nat.ltb_spec (count_upto f n) budget); lia.
  - lia.
Qed.

(** ** The concrete runtimes *)

Lemma half_math_in_range : random_in_range half_math.
Proof. intros n. cbn. split; lra. Qed.

Lemma cycle_math_in_range : random_in_range cycle_math.
Proof.
  intros n. cbn.
  pose proof (Z.mod_pos_bound (Z.of_nat n * 3) 10 eq_refl) as [H0 H1].
  unfold Qdiv, Qmult, Qle, Qlt, inject_Z, Qinv. cbn. split; lia.
Qed.

Lemma capacity_pos (i : nat) : (i <= 4999)%nat -> (i < PARTICLE_CAPACITY)%nat.
Proof. unfold PARTICLE_CAPACITY. lia. Qed.

Lemma stroke_a_not_ignored : ignored (Some "a"%string) = false.
Proof. reflexivity. Qed.

Lemma slot_first_burst (M : Math) (i : nat) :
  (i < PARTICLE_CAPACITY)%nat ->
  slot (buf (first_burst M)) i = @spawn_slot M 0 init_buffers i.
Proof.
  intros Hi. unfold first_burst.
  rewrite slot_spawnBurst by (auto using wf_init, stroke_a_not_ignored).
  reflexivity.
Qed.

Lemma reachable_first_burst (M : Math) : @reachable M (first_burst M).
Proof. apply reach_spawn, reach_init. Qed.

(** ** The invariant of dead slots *)

(** C1. For every particle index [i] below the capacity, after
    initialisation and after every spawn and every frame update (that is,
    in every reachable state), a dead particle ([ages[i] >= lifetimes[i]])
    has alpha 0, size 0 and its position at the sentinel (1e6, 1e6, 1e6). *)
Theorem dead_slots_pinned (M : Math) (e : engine) (i : nat) :
  random_in_range M -> reachable e -> (i < PARTICLE_CAPACITY)%nat ->
  p_lifetime (slot (buf e) i) <= p_age (slot (buf e) i) ->
  p_alpha (slot (buf e) i) = 0 /\
  p_size (slot (buf e) i) = 0 /\
  p_position (slot (buf e) i) = Vec3 1e6 1e6 1e6.
Proof.
  intros Hr He Hi Hd. apply dead_ge in Hd. revert Hd.
  change (pinned (slot (buf e) i)).
  induction He as [|trigger e He IH|trigger e He IH|delta e He IH];
    try pose proof (reachable_wf e He) as Hwf.
  - rewrite slot_init by assumption. intros _. repeat split.
  - unfold triggerEffect. destruct (isInitialRef e); [exact IH|].
    destruct (ignored trigger) eqn:Hig.
    + rewrite spawnBurst_ignored by assumption. exact IH.
    + rewrite slot_spawnBurst by assumption.
      apply pinned_spawn_slot; assumption.
  - destruct (ignored trigger) eqn:Hig.
    + rewrite spawnBurst_ignored by assumption. exact IH.
    + rewrite slot_spawnBurst by assumption.
      apply pinned_spawn_slot; assumption.
  - rewrite slot_useFrame by assumption.
    apply pinned_step_slot, IH.
Qed.

Lemma dead_slots_pinned_witness :
  let e := @useFrame cycle_math 0.016 (first_burst cycle_math) in
  p_lifetime (slot (buf e) 500) <= p_age (slot (buf e) 500) /\
  p_alpha (slot (buf e) 500) = 0 /\
  p_size (slot (buf e) 500) = 0 /\
  p_position (slot (buf e) 500) = Vec3 1e6 1e6 1e6.
Proof.
  intros e.
  assert (Hi : (500 < PARTICLE_CAPACITY)%nat) by (apply capacity_pos; lia).
  assert (Hd : p_lifetime (slot (buf e) 500) <= p_age (slot (buf e) 500)).
  { unfold e. rewrite slot_useFrame
      by (try exact Hi; apply (@reachable_wf cycle_math), reachable_first_burst).
    rewrite slot_first_burst by exact Hi.
    vm_compute. discriminate. }
  split; [exact Hd|].
  apply (dead_slots_pinned cycle_math e 500 cycle_math_in_range); [|exact Hi|exact Hd].
  apply reach_frame, reachable_first_burst.
Defined.

(** ** The spawn budget *)

Lemma reinitialised_dead (b : buffers) (i : nat) :
  reinitialised b i = true -> dead (slot b i) = true.
Proof. unfold reinitialised. intros [Hd _]%andb_true_iff. exact Hd. Qed.

Lemma spawn_slot_reinitialised `{Math} (k0 : nat) (b : buffers) (i : nat) :
  reinitialised b i = true ->
  spawn_slot k0 b i = impulse_slot (respawn_slot (k0 + 7 * dead_below b i)).
Proof. intros Hre. unfold spawn_slot. rewrite Hre. reflexivity. Qed.

Lemma spawn_slot_kept `{Math} (k0 : nat) (b : buffers) (i : nat) :
  reinitialised b i = false -> spawn_slot k0 b i = impulse_slot (slot b i).
Proof. intros Hre. unfold spawn_slot. rewrite Hre. reflexivity. Qed.

(** A slot goes from dead to alive in a spawn pass iff it is initialised
    again. *)
Lemma transition_reinitialised `{M : Math} (k0 : nat) (b : buffers) (i : nat) :
  random_in_range M ->
  dead (slot b i) && alive (spawn_slot k0 b i) = reinitialised b i.
Proof.
  intros Hr. destruct (reinitialised b i) eqn:Hre.
  - rewrite spawn_slot_reinitialised, alive_impulse_slot by assumption.
    rewrite respawn_slot_alive, (reinitialised_dead b i) by assumption. reflexivity.
  - rewrite spawn_slot_kept, alive_impulse_slot, alive_not_dead by assumption.
    apply andb_negb_r.
Qed.

Lemma respawn_slot_position `{M : Math} (k : nat) :
  random_in_range M ->
  Qabs (vx (p_position (respawn_slot k))) <= 0.01 /\
  Qabs (vy (p_position (respawn_slot k))) <= 0.01 /\
  vz (p_position (respawn_slot k)) = 0.
Proof.
  intros Hr. destruct (Hr k) as [Hx0 Hx1]. destruct (Hr (k + 1)%nat) as [Hy0 Hy1].
  unfold respawn_slot. cbn [p_position vx vy vz].
  split; [|split; [|reflexivity]]; apply Qabs_Qle_condition; split; lra.
Qed.

(** C2. A spawn with a key that is not a modifier makes
    [min 500 (number of dead slots before)] slots go from dead to alive; on
    a pool whose 5000 slots are all dead, exactly 500 slots are alive
    afterwards, each with age 0, x and y within 0.01 of the origin and
    z = 0. *)
Theorem spawn_budget (M : Math) (e : engine) (stroke : string) :
  random_in_range M -> wf e -> is_modifier stroke = false ->
  let e' := spawnBurst (Some stroke) e in
  count_upto (fun i => dead (slot (buf e) i) && alive (slot (buf e') i))
             PARTICLE_CAPACITY
  = Nat.min 500 (count_upto (fun i => dead (slot (buf e) i)) PARTICLE_CAPACITY)
  /\
  ((forall i, (i < PARTICLE_CAPACITY)%nat -> dead (slot (buf e) i) = true) ->
   count_upto (fun i => alive (slot (buf e') i)) PARTICLE_CAPACITY = 500%nat /\
   forall i, (i < PARTICLE_CAPACITY)%nat -> alive (slot (buf e') i) = true ->
     p_age (slot (buf e') i) = 0 /\
     Qabs (vx (p_position (slot (buf e') i))) <= 0.01 /\
     Qabs (vy (p_position (slot (buf e') i))) <= 0.01 /\
     vz (p_position (slot (buf e') i)) = 0).
Proof.
  intros Hr He Hmod e'.
  assert (Hig : ignored (Some stroke) = false) by exact Hmod.
  assert (Hslot : forall i, (i < PARTICLE_CAPACITY)%nat ->
            slot (buf e') i = spawn_slot (random_calls e) (buf e) i)
    by (intros i Hi; apply slot_spawnBurst; assumption).
  assert (Htrans : count_upto (fun i => dead (slot (buf e) i) && alive (slot (buf e') i))
                     PARTICLE_CAPACITY
                   = Nat.min 500 (dead_below (buf e) PARTICLE_CAPACITY)).
  { unfold dead_below. rewrite <- (count_upto_budget (fun i => dead (slot (buf e) i))).
    apply count_upto_ext. intros i Hi.
    rewrite Hslot by assumption. apply transition_reinitialised, Hr. }
  split; [exact Htrans|].
  intros Hall. split.
  - rewrite (count_upto_ext _
               (fun i => dead (slot (buf e) i) && alive (slot (buf e') i)))
      by (intros i Hi; rewrite Hall by assumption; reflexivity).
    rewrite Htrans. unfold dead_below. rewrite (proj2 (count_upto_all _ _) Hall).
    unfold PARTICLE_CAPACITY. lia.
  - intros i Hi Halive. rewrite Hslot in Halive |- * by assumption.
    assert (Hre : reinitialised (buf e) i = true).
    { rewrite <- (transition_reinitialised (random_calls e)) by assumption.
      rewrite Hall, Halive by assumption. reflexivity. }
    rewrite spawn_slot_reinitialised by assumption.
    destruct (impulse_slot_frame (respawn_slot (random_calls e + 7 * dead_below (buf e) i)))
      as (-> & -> & _).
    split; [reflexivity|]. apply respawn_slot_position, Hr.
Qed.

Lemma init_all_dead (i : nat) :
  (i < PARTICLE_CAPACITY)%nat -> dead (slot (buf init) i) = true.
Proof.
  intros Hi. cbn [init buf]. rewrite slot_init by assumption.
  apply dead_ge. cbn [p_age p_lifetime].
  unfold Qle, inject_Z. cbn. lia.
Qed.

Lemma spawn_budget_witness :
  let e' := @spawnBurst cycle_math (Some "a"%string) init in
  count_upto (fun i => dead (slot (buf init) i) && alive (slot (buf e') i))
             PARTICLE_CAPACITY
  = Nat.min 500 (count_upto (fun i => dead (slot (buf init) i)) PARTICLE_CAPACITY)
  /\
  ((forall i, (i < PARTICLE_CAPACITY)%nat -> dead (slot (buf init) i) = true) ->
   count_upto (fun i => alive (slot (buf e') i)) PARTICLE_CAPACITY = 500%nat /\
   forall i, (i < PARTICLE_CAPACITY)%nat -> alive (slot (buf e') i) = true ->
     p_age (slot (buf e') i) = 0 /\
     Qabs (vx (p_position (slot (buf e') i))) <= 0.01 /\
     Qabs (vy (p_position (slot (buf e') i))) <= 0.01 /\
     vz (p_position (slot (buf e') i)) = 0).
Proof.
  apply (spawn_budget cycle_math init "a"%string cycle_math_in_range wf_init).
  reflexivity.
Defined.

(** ** The shock wave *)

Lemma vsub_add_gain (v g : vec3) :
  veq (vsub (Vec3 (vx v + vx g) (vy v + vy g) (vz v + vz g)) v) g.
Proof. unfold veq, vsub. cbn. repeat split; ring. Qed.

Lemma veq_norm2 (u v : vec3) : veq u v -> norm2 u == norm2 v.
Proof. intros (Hx & Hy & Hz). unfold norm2. rewrite Hx, Hy, Hz. reflexivity. Qed.

Lemma veq_trans (u v w : vec3) : veq u v -> veq v w -> veq u w.
Proof.
  intros (Hx & Hy & Hz) (Hx' & Hy' & Hz'). unfold veq.
  rewrite Hx, Hy, Hz. auto.
Qed.

Lemma inside_radius (d d2 : Q) :
  0 <= d -> d * d == d2 ->
  (Qltb d2 (IMPULSE_RADIUS * IMPULSE_RADIUS) = true <-> d < IMPULSE_RADIUS).
Proof.
  intros Hd Hsq. rewrite Qltb_lt. unfold IMPULSE_RADIUS. split; intros Hlt.
  - destruct (Qlt_le_dec d 0.2) as [|Hge]; [assumption|]. nra.
  - nra.
Qed.

Section Gain.
Context {M : Math}.
Variable q : particle.
Hypothesis Halive : alive q = true.
Hypothesis Hsqrt : sqrt_exact_at M (dist2_of q).

Let x := p_position q.
Let d := Math_sqrt (dist2_of q).
Let g := vsub (p_velocity (impulse_slot q)) (p_velocity q).

Lemma gain_outside : IMPULSE_RADIUS <= d -> veq g (Vec3 0 0 0).
Proof.
  intros Hd. destruct Hsqrt as [H0 Hsq]. fold d in H0, Hsq.
  unfold g, impulse_slot. rewrite Halive.
  destruct (Qltb _ _) eqn:Hin.
  - apply (inside_radius d) in Hin; [lra | assumption | assumption].
  - unfold veq, vsub. cbn. repeat split; ring.
Qed.

Lemma gain_inside :
  d < IMPULSE_RADIUS -> veq g (impulse_gain x).
Proof.
  intros Hd. destruct Hsqrt as [H0 Hsq]. fold d in H0, Hsq.
  unfold g, impulse_slot. rewrite Halive.
  rewrite (proj2 (inside_radius d _ H0 Hsq) Hd).
  apply vsub_add_gain.
Qed.

Lemma gain_normalised :
  0.0001 <= d -> d < IMPULSE_RADIUS ->
  let s := IMPULSE_STRENGTH * (1 - d / IMPULSE_RADIUS) in
  veq g (Vec3 (vx x / d * s) (vy x / d * s) (vz x / d * s)) /\
  norm2 g == s * s /\ 0 < s.
Proof.
  intros Hlo Hhi s. destruct Hsqrt as [H0 Hsq]. fold d in H0, Hsq.
  assert (Hmax : Math_max 0.0001 d == d) by (apply Q.max_r; exact Hlo).
  assert (Hg : veq g (Vec3 (vx x / d * s) (vy x / d * s) (vz x / d * s))).
  { eapply veq_trans; [apply gain_inside; exact Hhi|].
    unfold impulse_gain, veq. cbn [vx vy vz].
    change (Math_max 0.0001 _) with (Math_max 0.0001 d).
    repeat split; rewrite Hmax; reflexivity. }
  split; [exact Hg|]. split.
  - rewrite (veq_norm2 _ _ Hg). unfold norm2. cbn [vx vy vz].
    unfold dist2_of in Hsq. fold x in Hsq.
    assert (Hd0 : ~ d == 0) by lra.
    transitivity ((vx x * vx x + vy x * vy x + vz x * vz x) / (d * d) * (s * s)).
    + field. exact Hd0.
    + rewrite <- Hsq. field. exact Hd0.
  - assert (Hdiv : d / IMPULSE_RADIUS == d * 5) by (unfold IMPULSE_RADIUS; field).
    unfold s. rewrite Hdiv. unfold IMPULSE_STRENGTH, IMPULSE_RADIUS in *. lra.
Qed.

Lemma gain_clamped :
  d < 0.0001 ->
  veq g (Vec3 (vx x / 0.0001 * 4.9975) (vy x / 0.0001 * 4.9975) (vz x / 0.0001 * 4.9975)) /\
  norm2 g == (4.9975 * (d / 0.0001)) * (4.9975 * (d / 0.0001)).
Proof.
  intros Hlo. destruct Hsqrt as [H0 Hsq]. fold d in H0, Hsq.
  assert (Hmax : Math_max 0.0001 d == 0.0001) by (apply Q.max_l; lra).
  assert (Hg : veq g (Vec3 (vx x / 0.0001 * 4.9975) (vy x / 0.0001 * 4.9975)
                           (vz x / 0.0001 * 4.9975))).
  { eapply veq_trans; [apply gain_inside; unfold IMPULSE_RADIUS; lra|].
    unfold impulse_gain, veq. cbn [vx vy vz].
    change (Math_max 0.0001 _) with (Math_max 0.0001 d).
    unfold IMPULSE_STRENGTH, IMPULSE_RADIUS. repeat split; rewrite Hmax; field. }
  split; [exact Hg|].
  rewrite (veq_norm2 _ _ Hg). unfold norm2. cbn [vx vy vz].
  unfold dist2_of in Hsq. fold x in Hsq.
  transitivity ((vx x * vx x + vy x * vy x + vz x * vz x) * (4.9975 / 0.0001 * (4.9975 / 0.0001))).
  - field.
  - rewrite <- Hsq. field.
Qed.
End Gain.

Lemma spawn_slot_before_impulse `{Math} (k0 : nat) (b : buffers) (i : nat) :
  spawn_slot k0 b i = impulse_slot (before_impulse k0 b i).
Proof. unfold spawn_slot, before_impulse. destruct (reinitialised b i); reflexivity. Qed.

Lemma before_impulse_alive `{Math} (k0 : nat) (b : buffers) (i : nat) :
  alive (slot b i) = true -> before_impulse k0 b i = slot b i.
Proof.
  intros Ha. unfold before_impulse, reinitialised.
  rewrite alive_not_dead in Ha. apply negb_true_iff in Ha. rewrite Ha. reflexivity.
Qed.

Lemma gain_far `{Math} (q : particle) :
  alive q = true -> IMPULSE_RADIUS * IMPULSE_RADIUS <= dist2_of q ->
  veq (vsub (p_velocity (impulse_slot q)) (p_velocity q)) (Vec3 0 0 0).
Proof.
  intros Ha Hfar. apply Qltb_ge in Hfar. unfold impulse_slot. rewrite Ha, Hfar.
  unfold veq, vsub. cbn. repeat split; ring.
Qed.

Lemma gain_near `{Math} (q : particle) :
  alive q = true -> dist2_of q < IMPULSE_RADIUS * IMPULSE_RADIUS ->
  veq (vsub (p_velocity (impulse_slot q)) (p_velocity q))
      (impulse_gain (p_position q)).
Proof.
  intros Ha Hnear. apply Qltb_lt in Hnear. unfold impulse_slot. rewrite Ha, Hnear.
  apply vsub_add_gain.
Qed.

(** The length of the gain times the clamped distance is the strength
    times the distance, in squares. *)
Lemma impulse_gain_norm `{Math} (x : vec3) :
  let dist2 := vx x * vx x + vy x * vy x + vz x * vz x in
  let dist := Math_max 0.0001 (Math_sqrt dist2) in
  let strength := IMPULSE_STRENGTH * (1 - dist / IMPULSE_RADIUS) in
  norm2 (impulse_gain x) * (dist * dist) == strength * strength * dist2.
Proof.
  intros dist2 dist strength. unfold norm2, impulse_gain. cbn [vx vy vz].
  fold dist2. fold dist. fold strength.
  assert (Hd : 0.0001 <= dist) by apply Q.le_max_l.
  unfold dist2. field. lra.
Qed.

(** C3, amended. In a spawn pass that is not ignored, let [q] be slot [i]
    as the shock wave sees it (the slot as it was if it was alive before
    the pass), alive, and [g] the velocity it gains.  If its squared
    distance from the origin is below [IMPULSE_RADIUS^2], [g] is the
    position times [strength / dist] with
    [dist = max(1e-4, Math.sqrt(dist2))] and
    [strength = IMPULSE_STRENGTH * (1 - dist / IMPULSE_RADIUS)]; otherwise
    (the boundary included) [g] is zero.  Where [Math.sqrt] returns the
    exact distance [d]: for [1e-4 <= d < IMPULSE_RADIUS], [g] is the
    normalised position times [IMPULSE_STRENGTH * (1 - d / IMPULSE_RADIUS)],
    of that magnitude; for [d < 1e-4] the clamp makes [g] the position
    times [4.9975 / 1e-4], of magnitude [4.9975 * d / 1e-4], which vanishes
    at the centre. *)
Theorem shock_wave_gain (M : Math) (e : engine) (trigger : option string) (i : nat) :
  wf e -> ignored trigger = false -> (i < PARTICLE_CAPACITY)%nat ->
  let q := before_impulse (random_calls e) (buf e) i in
  let p' := slot (buf (spawnBurst trigger e)) i in
  let x := p_position q in
  let dist2 := dist2_of q in
  let d := Math_sqrt dist2 in
  let dist := Math_max 0.0001 d in
  let strength := IMPULSE_STRENGTH * (1 - dist / IMPULSE_RADIUS) in
  let g := vsub (p_velocity p') (p_velocity q) in
  alive q = true ->
  (alive (slot (buf e) i) = true -> q = slot (buf e) i) /\
  (dist2 < IMPULSE_RADIUS * IMPULSE_RADIUS ->
   veq g (Vec3 (vx x / dist * strength) (vy x / dist * strength)
               (vz x / dist * strength)) /\
   norm2 g * (dist * dist) == strength * strength * dist2) /\
  (IMPULSE_RADIUS * IMPULSE_RADIUS <= dist2 -> veq g (Vec3 0 0 0)) /\
  (sqrt_exact_at M dist2 ->
   (0.0001 <= d -> d < IMPULSE_RADIUS ->
    let s := IMPULSE_STRENGTH * (1 - d / IMPULSE_RADIUS) in
    veq g (Vec3 (vx x / d * s) (vy x / d * s) (vz x / d * s)) /\
    norm2 g == s * s /\ 0 < s) /\
   (IMPULSE_RADIUS <= d -> veq g (Vec3 0 0 0)) /\
   (d < 0.0001 ->
    veq g (Vec3 (vx x / 0.0001 * 4.9975) (vy x / 0.0001 * 4.9975)
                (vz x / 0.0001 * 4.9975)) /\
    norm2 g == (4.9975 * (d / 0.0001)) * (4.9975 * (d / 0.0001)))).
Proof.
  intros He Hig Hi q p' x dist2 d dist strength g Halive.
  assert (Hp' : p' = impulse_slot q).
  { unfold p', q. rewrite slot_spawnBurst by assumption.
    apply spawn_slot_before_impulse. }
  unfold g. rewrite Hp'.
  split; [apply before_impulse_alive|].
  split.
  { intros Hnear. pose proof (gain_near q Halive Hnear) as Hg.
    split; [exact Hg|]. rewrite (veq_norm2 _ _ Hg). apply impulse_gain_norm. }
  split; [apply gain_far; exact Halive|].
  intros Hsqrt.
  split; [apply gain_normalised; assumption|].
  split; [apply gain_outside; assumption | apply gain_clamped; assumption].
Qed.

Lemma shock_wave_gain_witness :
  let M := cycle_math in
  let q := @before_impulse M 0 init_buffers 5 in
  let p' := slot (buf (@spawnBurst M (Some "a"%string) init)) 5 in
  let x := p_position q in
  let dist2 := dist2_of q in
  let d := Math_sqrt dist2 in
  let dist := Math_max 0.0001 d in
  let strength := IMPULSE_STRENGTH * (1 - dist / IMPULSE_RADIUS) in
  let g := vsub (p_velocity p') (p_velocity q) in
  (alive q = true /\ dist2 < IMPULSE_RADIUS * IMPULSE_RADIUS /\
   sqrt_exact_at M dist2 /\ 0.0001 <= d /\ d < IMPULSE_RADIUS) /\
  (alive (slot (buf init) 5) = true -> q = slot (buf init) 5) /\
  (dist2 < IMPULSE_RADIUS * IMPULSE_RADIUS ->
   veq g (Vec3 (vx x / dist * strength) (vy x / dist * strength)
               (vz x / dist * strength)) /\
   norm2 g * (dist * dist) == strength * strength * dist2) /\
  (IMPULSE_RADIUS * IMPULSE_RADIUS <= dist2 -> veq g (Vec3 0 0 0)) /\
  (sqrt_exact_at M dist2 ->
   (0.0001 <= d -> d < IMPULSE_RADIUS ->
    let s := IMPULSE_STRENGTH * (1 - d / IMPULSE_RADIUS) in
    veq g (Vec3 (vx x / d * s) (vy x / d * s) (vz x / d * s)) /\
    norm2 g == s * s /\ 0 < s) /\
   (IMPULSE_RADIUS <= d -> veq g (Vec3 0 0 0)) /\
   (d < 0.0001 ->
    veq g (Vec3 (vx x / 0.0001 * 4.9975) (vy x / 0.0001 * 4.9975)
                (vz x / 0.0001 * 4.9975)) /\
    norm2 g == (4.9975 * (d / 0.0001)) * (4.9975 * (d / 0.0001)))).
Proof.
  intros M q p' x dist2 d dist strength g.
  assert (Ha : alive q = true) by (vm_compute; reflexivity).
  assert (Hn : dist2 < IMPULSE_RADIUS * IMPULSE_RADIUS) by (vm_compute; reflexivity).
  assert (Hs : sqrt_exact_at M dist2) by (vm_compute; split; [discriminate | reflexivity]).
  assert (Hlo : 0.0001 <= d) by (vm_compute; discriminate).
  assert (Hhi : d < IMPULSE_RADIUS) by (vm_compute; reflexivity).
  split; [repeat split; assumption|].
  apply (shock_wave_gain M init (Some "a"%string) 5 wf_init eq_refl
           (capacity_pos 5 ltac:(lia)) Ha).
Defined.

(** The specified magnitude fails below the clamp: the particle spawned at
    (0.00005, 0, 0) gains 2.49875, not 4.99875, and the particle spawned at
    the origin gains nothing, not 5. *)
Lemma shock_wave_gain_counterexample :
  ~ gain_as_specified near_math init 0 /\ ~ gain_as_specified half_math init 0.
Proof.
  assert (Hi : (0 < PARTICLE_CAPACITY)%nat) by (apply capacity_pos; lia).
  split; intros Hclaim; unfold gain_as_specified in Hclaim;
    rewrite slot_spawnBurst in Hclaim by (auto using wf_init);
    cbn [init buf random_calls] in Hclaim;
    rewrite spawn_slot_before_impulse in Hclaim.
  - vm_compute in Hclaim. specialize (Hclaim eq_refl eq_refl). discriminate.
  - vm_compute in Hclaim. specialize (Hclaim eq_refl eq_refl). discriminate.
Qed.

(** ** Invariants of the reachable states *)

Lemma reachable_slot_invariant `{Math} (P : particle -> Prop) :
  (forall i, (i < PARTICLE_CAPACITY)%nat -> P (slot init_buffers i)) ->
  (forall k0 b i, P (slot b i) -> P (spawn_slot k0 b i)) ->
  (forall delta p, P p -> P (step_slot delta p)) ->
  forall e, reachable e ->
  forall i, (i < PARTICLE_CAPACITY)%nat -> P (slot (buf e) i).
Proof.
  intros Hinit Hspawn Hstep e He.
  induction He as [|trigger e He IH|trigger e He IH|delta e He IH]; intros i Hi;
    try pose proof (reachable_wf e He) as Hwf.
  - apply Hinit, Hi.
  - unfold triggerEffect. destruct (isInitialRef e); [apply IH, Hi|].
    destruct (ignored trigger) eqn:Hig.
    + rewrite spawnBurst_ignored by assumption. apply IH, Hi.
    + rewrite slot_spawnBurst by assumption. apply Hspawn, IH, Hi.
  - destruct (ignored trigger) eqn:Hig.
    + rewrite spawnBurst_ignored by assumption. apply IH, Hi.
    + rewrite slot_spawnBurst by assumption. apply Hspawn, IH, Hi.
  - rewrite slot_useFrame by assumption. apply Hstep, IH, Hi.
Qed.

Lemma retire_slot_lifetime (p : particle) :
  p_lifetime (retire_slot p) = p_lifetime p.
Proof. unfold retire_slot. destruct (Qgeb _ _); reflexivity. Qed.

Lemma step_slot_lifetime (delta : Q) (p : particle) :
  p_lifetime (step_slot delta p) = p_lifetime p.
Proof.
  unfold step_slot. destruct (alive p); [|reflexivity].
  rewrite retire_slot_lifetime. reflexivity.
Qed.

Lemma reachable_spawned_lifetime (M : Math) (e : engine) (i : nat) :
  random_in_range M -> reachable e -> (i < PARTICLE_CAPACITY)%nat ->
  spawned_lifetime (slot (buf e) i).
Proof.
  intros Hr He Hi. revert e He i Hi.
  apply (reachable_slot_invariant spawned_lifetime).
  - intros i Hi. rewrite slot_init by assumption. intros Ha.
    apply alive_lt in Ha. cbn [p_age p_lifetime] in Ha.
    unfold Qlt, inject_Z in Ha. cbn in Ha. lia.
  - intros k0 b i Hp. unfold spawn_slot. destruct (reinitialised b i).
    + intros _. destruct (impulse_slot_frame (respawn_slot (k0 + 7 * dead_below b i)))
        as (_ & _ & -> & _).
      apply respawn_slot_lifetime, Hr.
    + intros Ha. rewrite alive_impulse_slot in Ha.
      destruct (impulse_slot_frame (slot b i)) as (_ & _ & -> & _). apply Hp, Ha.
  - intros delta p Hp Ha. rewrite step_slot_lifetime.
    unfold step_slot in Ha. destruct (alive p) eqn:Hap; [apply Hp; exact Hap|].
    rewrite Hap in Ha. discriminate.
Qed.

(** ** The integrator *)

Lemma fraction_clamped (a life : Q) :
  0.0001 <= life ->
  Math_min 1 (a / Math_max 0.0001 life) == Math_min 1 (a / life).
Proof.
  intros Hl. unfold Math_min, Math_max.
  assert (Hmax : Qmax 0.0001 life == life) by (apply Q.max_r; exact Hl).
  rewrite Hmax. reflexivity.
Qed.

Lemma fraction_expired (a life : Q) :
  0 < life -> life <= a -> Math_min 1 (a / life) == 1.
Proof.
  intros Hl Ha. unfold Math_min. apply Q.min_l.
  apply Qle_shift_div_l; [exact Hl | lra].
Qed.

Lemma retire_slot_frame (q : particle) :
  p_velocity (retire_slot q) = p_velocity q /\
  p_age (retire_slot q) = p_age q /\
  p_lifetime (retire_slot q) = p_lifetime q.
Proof. unfold retire_slot. destruct (Qgeb _ _); repeat split. Qed.

Lemma retire_slot_alive (q : particle) :
  alive (retire_slot q) = true -> retire_slot q = q.
Proof.
  unfold retire_slot. destruct (Qgeb (p_age q) (p_lifetime q)) eqn:Hg; [|reflexivity].
  unfold alive, Qltb. cbn [p_age p_lifetime]. unfold Qgeb in Hg. rewrite Hg. discriminate.
Qed.

Lemma retire_slot_expired (q : particle) :
  p_lifetime q <= p_age q ->
  retire_slot q
  = Particle sentinel (p_velocity q) (p_age q) (p_lifetime q) 0 0.
Proof.
  intros Hd. apply Qgeb_le in Hd. unfold retire_slot. rewrite Hd. reflexivity.
Qed.

Lemma retire_slot_young (q : particle) :
  p_age q < p_lifetime q -> retire_slot q = q.
Proof. intros Hd. apply Qgeb_lt in Hd. unfold retire_slot. rewrite Hd. reflexivity. Qed.

Lemma slot_integrate_step (e : engine) (delta : Q) (i : nat) `{Math} :
  wf e -> (i < PARTICLE_CAPACITY)%nat -> alive (slot (buf e) i) = true ->
  slot (integrate delta i (buf e)) i = integrate_slot delta (slot (buf e) i) /\
  slot (buf (useFrame delta e)) i
  = retire_slot (integrate_slot delta (slot (buf e) i)).
Proof.
  intros He Hi Ha. split.
  - apply (slot_integrate_eq PARTICLE_CAPACITY); assumption.
  - rewrite slot_useFrame by assumption. unfold step_slot. rewrite Ha. reflexivity.
Qed.

(** C4. For an alive particle of a reachable state and a frame of
    [delta] seconds, the integration block (lines 243-260) leaves the slot
    with velocity [(0.98*vx, 0.98*vy + (-8)*delta, 0.98*vz)], the position
    advanced by the new velocity times [delta], the age advanced by
    [delta] and alpha [(1-t)^2] with [t = min(1, newAge/lifetime)]; the
    frame keeps this velocity, age and alpha, and keeps the position
    unless the particle dies in this frame. *)
Theorem integrator_step (M : Math) (e : engine) (delta : Q) (i : nat) :
  random_in_range M -> reachable e -> (i < PARTICLE_CAPACITY)%nat ->
  let p := slot (buf e) i in
  let q := slot (integrate delta i (buf e)) i in
  let p' := slot (buf (useFrame delta e)) i in
  let v := p_velocity p in
  let v' := p_velocity q in
  let t := Qmin 1 ((p_age p + delta) / p_lifetime p) in
  alive p = true ->
  veq v' (Vec3 (0.98 * vx v) (0.98 * vy v + -8 * delta) (0.98 * vz v)) /\
  veq (p_position q)
      (Vec3 (vx (p_position p) + vx v' * delta)
            (vy (p_position p) + vy v' * delta)
            (vz (p_position p) + vz v' * delta)) /\
  p_age q == p_age p + delta /\
  p_alpha q == (1 - t) ^ 2 /\
  p_velocity p' = v' /\
  p_age p' = p_age q /\
  p_alpha p' == (1 - t) ^ 2 /\
  (alive p' = true -> p_position p' = p_position q).
Proof.
  intros Hr He Hi p q p' v v' t Ha.
  pose proof (reachable_wf e He) as Hwf.
  destruct (reachable_spawned_lifetime M e i Hr He Hi Ha) as [Hlo Hhi].
  destruct (slot_integrate_step e delta i Hwf Hi Ha) as [Hq Hp'].
  fold p in Hlo, Hhi, Hq, Hp'. fold q in Hq. fold p' in Hp'.
  rewrite <- Hq in Hp'.
  assert (Halpha : p_alpha q == (1 - t) ^ 2).
  { rewrite Hq. unfold integrate_slot. cbn [p_alpha].
    rewrite fraction_clamped by lra. fold t. unfold Math_min. fold t.
    cbn. ring. }
  split.
  { unfold v'. rewrite Hq. unfold integrate_slot, veq, VELOCITY_DAMPING, GRAVITY.
    cbn [p_velocity vx vy vz]. fold v. repeat split; ring. }
  split.
  { unfold v'. rewrite Hq. unfold integrate_slot, veq. cbn [p_position p_velocity vx vy vz].
    repeat split; reflexivity. }
  split; [rewrite Hq; reflexivity|].
  split; [exact Halpha|].
  destruct (retire_slot_frame q) as (Hv & Hage & Hlife).
  rewrite Hp'. split; [exact Hv|]. split; [exact Hage|].
  split.
  - destruct (Qlt_le_dec (p_age q) (p_lifetime q)) as [Hy|Hx].
    + rewrite retire_slot_young by assumption. exact Halpha.
    + rewrite retire_slot_expired by assumption. cbn [p_alpha].
      assert (Ht : t == 1).
      { unfold t. apply fraction_expired; [lra|].
        rewrite Hq in Hx. cbn [integrate_slot p_age p_lifetime] in Hx. exact Hx. }
      rewrite Ht. reflexivity.
  - intros Hal. rewrite (retire_slot_alive q Hal). reflexivity.
Qed.

Lemma alive_first_burst_5 : alive (slot (buf (first_burst cycle_math)) 5) = true.
Proof.
  rewrite slot_first_burst by (apply capacity_pos; lia).
  vm_compute. reflexivity.
Qed.

Lemma integrator_step_witness :
  let M := cycle_math in
  let e := first_burst M in
  let delta := 0.016 in
  let p := slot (buf e) 5 in
  let q := slot (integrate delta 5 (buf e)) 5 in
  let p' := slot (buf (useFrame delta e)) 5 in
  let v := p_velocity p in
  let v' := p_velocity q in
  let t := Qmin 1 ((p_age p + delta) / p_lifetime p) in
  alive p = true /\
  veq v' (Vec3 (0.98 * vx v) (0.98 * vy v + -8 * delta) (0.98 * vz v)) /\
  veq (p_position q)
      (Vec3 (vx (p_position p) + vx v' * delta)
            (vy (p_position p) + vy v' * delta)
            (vz (p_position p) + vz v' * delta)) /\
  p_age q == p_age p + delta /\
  p_alpha q == (1 - t) ^ 2 /\
  p_velocity p' = v' /\
  p_age p' = p_age q /\
  p_alpha p' == (1 - t) ^ 2 /\
  (alive p' = true -> p_position p' = p_position q).
Proof.
  intros M e delta p q p' v v' t.
  split; [exact alive_first_burst_5|].
  apply (integrator_step M e delta 5 cycle_math_in_range (reachable_first_burst M)
           (capacity_pos 5 ltac:(lia)) alive_first_burst_5).
Defined.

(** ** Size easing *)

(** C5, amended. For an alive particle and a frame that does not kill it,
    the age is advanced by [delta] and the size is multiplied by 1.04 if the
    age before the advance is below 0.06, and by 0.999 otherwise. *)
Theorem size_easing (M : Math) (e : engine) (delta : Q) (i : nat) :
  wf e -> (i < PARTICLE_CAPACITY)%nat ->
  let p := slot (buf e) i in
  let p' := slot (buf (useFrame delta e)) i in
  alive p = true -> alive p' = true ->
  p_age p' = p_age p + delta /\
  p_size p' = p_size p * (if Qltb (p_age p) 0.06 then 1.04 else 0.999).
Proof.
  intros He Hi p p' Ha Ha'.
  destruct (slot_integrate_step e delta i He Hi Ha) as [_ Hp'].
  fold p in Hp'. fold p' in Hp'. rewrite Hp' in Ha' |- *.
  rewrite (retire_slot_alive _ Ha'). unfold integrate_slot. cbn [p_age p_size].
  split; [reflexivity|]. destruct (Qltb (p_age p) 0.06); reflexivity.
Qed.

Lemma size_easing_witness :
  let M := cycle_math in
  let e := first_burst M in
  let p := slot (buf e) 5 in
  let p' := slot (buf (useFrame 0.1 e)) 5 in
  (alive p = true /\ alive p' = true) /\
  p_age p' = p_age p + 0.1 /\
  p_size p' = p_size p * (if Qltb (p_age p) 0.06 then 1.04 else 0.999).
Proof.
  intros M e p p'.
  assert (Hi : (5 < PARTICLE_CAPACITY)%nat) by (apply capacity_pos; lia).
  assert (Hwf : wf e) by apply wf_spawnBurst, wf_init.
  assert (Ha' : alive p' = true).
  { pose proof (slot_useFrame 0.1 e 5 Hwf Hi) as Hstep.
    pose proof (slot_first_burst M 5 Hi) as Hburst.
    unfold p'. rewrite Hstep. unfold e. rewrite Hburst.
    vm_compute. reflexivity. }
  split; [split; [exact alive_first_burst_5 | exact Ha']|].
  apply (size_easing M e 0.1 5 Hwf Hi alive_first_burst_5 Ha').
Defined.

(** With age 0 and [delta = 0.1] the advanced age is 0.1, not below 0.06,
    and the size 9 becomes 9.36 = 9 * 1.04, not 9 * 0.999. *)
Lemma size_easing_counterexample :
  ~ size_as_specified cycle_math (first_burst cycle_math) 0.1 5.
Proof.
  unfold size_as_specified. intros Hspec.
  assert (Hi : (5 < PARTICLE_CAPACITY)%nat) by (apply capacity_pos; lia).
  assert (Hwf : wf (first_burst cycle_math)) by apply wf_spawnBurst, wf_init.
  pose proof (@slot_useFrame cycle_math 0.1 _ 5 Hwf Hi) as Hstep.
  pose proof (slot_first_burst cycle_math 5 Hi) as Hburst.
  rewrite Hstep, Hburst in Hspec.
  vm_compute in Hspec. specialize (Hspec eq_refl eq_refl). discriminate Hspec.
Qed.

(** ** Retirement *)

Lemma step_slot_expired (delta : Q) (p : particle) :
  alive p = true -> p_lifetime p - p_age p <= delta ->
  step_slot delta p
  = Particle sentinel (p_velocity (integrate_slot delta p)) (p_age p + delta)
             (p_lifetime p) 0 0.
Proof.
  intros Ha Hd. unfold step_slot. rewrite Ha.
  rewrite retire_slot_expired; [reflexivity|].
  unfold integrate_slot. cbn [p_age p_lifetime]. lra.
Qed.

Lemma wf_frames `{Math} (deltas : list Q) (e : engine) :
  wf e -> wf (frames deltas e).
Proof.
  revert e. induction deltas as [|delta deltas IH]; intros e He; [exact He|].
  apply IH, wf_useFrame, He.
Qed.

Lemma slot_frames_dead `{Math} (deltas : list Q) (e : engine) (i : nat) :
  wf e -> (i < PARTICLE_CAPACITY)%nat -> dead (slot (buf e) i) = true ->
  slot (buf (frames deltas e)) i = slot (buf e) i.
Proof.
  revert e. induction deltas as [|delta deltas IH]; intros e He Hi Hd; [reflexivity|].
  assert (Hstep : slot (buf (useFrame delta e)) i = slot (buf e) i).
  { rewrite slot_useFrame by assumption. apply step_slot_dead, Hd. }
  change (frames (delta :: deltas) e) with (frames deltas (useFrame delta e)).
  rewrite IH; [exact Hstep | apply wf_useFrame, He | exact Hi |].
  rewrite Hstep. exact Hd.
Qed.

(** C7. One frame whose [delta] is strictly greater than the remaining
    lifetime of an alive particle leaves it at the sentinel (1e6, 1e6, 1e6)
    with alpha 0 and size 0, and no later run of frames changes the slot. *)
Theorem overrun_retires (M : Math) (e : engine) (delta : Q) (i : nat) :
  wf e -> (i < PARTICLE_CAPACITY)%nat ->
  let p := slot (buf e) i in
  let e' := useFrame delta e in
  alive p = true -> p_lifetime p - p_age p < delta ->
  p_position (slot (buf e') i) = Vec3 1e6 1e6 1e6 /\
  p_alpha (slot (buf e') i) = 0 /\
  p_size (slot (buf e') i) = 0 /\
  forall deltas : list Q,
    slot (buf (frames deltas e')) i = slot (buf e') i.
Proof.
  intros He Hi p e' Ha Hd.
  assert (Hp' : slot (buf e') i
                = Particle sentinel (p_velocity (integrate_slot delta p))
                           (p_age p + delta) (p_lifetime p) 0 0).
  { unfold e'. rewrite slot_useFrame by assumption.
    apply step_slot_expired; [exact Ha | lra]. }
  rewrite Hp'. repeat split. intros deltas.
  rewrite <- Hp'. apply slot_frames_dead; [apply wf_useFrame, He | exact Hi |].
  rewrite Hp'. apply dead_ge. cbn [p_age p_lifetime]. lra.
Qed.

Lemma overrun_retires_witness :
  let M := cycle_math in
  let e := first_burst M in
  let p := slot (buf e) 5 in
  let e' := useFrame 1 e in
  (alive p = true /\ p_lifetime p - p_age p < 1) /\
  p_position (slot (buf e') 5) = Vec3 1e6 1e6 1e6 /\
  p_alpha (slot (buf e') 5) = 0 /\
  p_size (slot (buf e') 5) = 0 /\
  forall deltas : list Q,
    slot (buf (frames deltas e')) 5 = slot (buf e') 5.
Proof.
  intros M e p e'.
  assert (Hi : (5 < PARTICLE_CAPACITY)%nat) by (apply capacity_pos; lia).
  assert (Hwf : wf e) by apply wf_spawnBurst, wf_init.
  assert (Hd : p_lifetime p - p_age p < 1).
  { pose proof (slot_first_burst M 5 Hi) as Hburst.
    unfold p, e. rewrite Hburst. vm_compute. reflexivity. }
  split; [split; [exact alive_first_burst_5 | exact Hd]|].
  apply (overrun_retires M e 1 5 Hwf Hi alive_first_burst_5 Hd).
Defined.

(** ** Ignored triggers *)

(** C8. A spawn with no trigger, or with the key Alt, Control, Meta or
    Shift, returns the engine unchanged: no slot, velocity, dirty flag or
    shake magnitude is touched. *)
Theorem ignored_trigger_noop (M : Math) (e : engine) :
  spawnBurst None e = e /\
  spawnBurst (Some "Alt"%string) e = e /\
  spawnBurst (Some "Control"%string) e = e /\
  spawnBurst (Some "Meta"%string) e = e /\
  spawnBurst (Some "Shift"%string) e = e.
Proof. repeat split. Qed.

(** ** Camera shake *)

(** C9. A spawn with a key that is not a modifier sets the shake
    magnitude to [max(current, 0.12)]: at least 0.12, never below the
    current value. *)
Theorem spawn_raises_shake (M : Math) (e : engine) (stroke : string) :
  is_modifier stroke = false ->
  let e' := spawnBurst (Some stroke) e in
  shakeMagnitudeRef e' = Qmax (shakeMagnitudeRef e) 0.12 /\
  0.12 <= shakeMagnitudeRef e' /\
  shakeMagnitudeRef e <= shakeMagnitudeRef e'.
Proof.
  intros Hmod e'.
  assert (Hs : shakeMagnitudeRef e' = Qmax (shakeMagnitudeRef e) 0.12).
  { unfold e', spawnBurst. cbn [ignored]. rewrite Hmod. reflexivity. }
  rewrite Hs. split; [reflexivity|]. split; [apply Q.le_max_r | apply Q.le_max_l].
Qed.

Lemma spawn_raises_shake_witness :
  let e' := @spawnBurst cycle_math (Some "a"%string) init in
  shakeMagnitudeRef e' = Qmax (shakeMagnitudeRef init) 0.12 /\
  0.12 <= shakeMagnitudeRef e' /\
  shakeMagnitudeRef init <= shakeMagnitudeRef e'.
Proof. apply (spawn_raises_shake cycle_math init "a"%string). reflexivity. Defined.

Lemma useFrame_still `{Math} (delta : Q) (e : engine) :
  shakeMagnitudeRef e <= 0 ->
  shakeMagnitudeRef (useFrame delta e) = shakeMagnitudeRef e /\
  camera_position (useFrame delta e) = camera_position e /\
  baseCamPosRef (useFrame delta e)
  = Some (default (camera_position e) (baseCamPosRef e)).
Proof.
  intros Hs. apply Qltb_ge in Hs. unfold useFrame. rewrite Hs. repeat split.
Qed.

Lemma useFrame_shaking `{Math} (delta : Q) (e : engine) :
  0 < shakeMagnitudeRef e ->
  let base := default (camera_position e) (baseCamPosRef e) in
  let mag' := Math_max 0 (shakeMagnitudeRef e - SHAKE_DECAY_PER_SEC * delta) in
  shakeMagnitudeRef (useFrame delta e) = mag' /\
  baseCamPosRef (useFrame delta e) = Some base /\
  camera_position (useFrame delta e)
  = (if Qeq_bool mag' 0 then base
     else shaken base (shakeMagnitudeRef e) (random_calls e)).
Proof.
  intros Hs. apply Qltb_lt in Hs. unfold useFrame. rewrite Hs. repeat split.
Qed.




Lemma shake_first_burst (M : Math) : shakeMagnitudeRef (first_burst M) = 0.12.
Proof.
  unfold first_burst, spawnBurst. rewrite stroke_a_not_ignored.
  cbn [shakeMagnitudeRef init]. reflexivity.
Qed.

(** ** Signs in double precision *)




















(** ** What a spawn leaves alone *)

(** C10. In every spawn, a slot alive before the call keeps its
    position, age, lifetime, size and alpha, and a slot dead before the
    call that the spawn does not initialise again is unchanged; a slot the
    spawn initialises again has age 0 and alpha 1. *)
Theorem spawn_frame (M : Math) (e : engine) (trigger : option string) (i : nat) :
  wf e -> (i < PARTICLE_CAPACITY)%nat ->
  let p := slot (buf e) i in
  let p' := slot (buf (spawnBurst trigger e)) i in
  (alive p = true ->
   p_position p' = p_position p /\ p_age p' = p_age p /\
   p_lifetime p' = p_lifetime p /\ p_size p' = p_size p /\
   p_alpha p' = p_alpha p) /\
  (dead p = true ->
   ignored trigger = true \/ reinitialised (buf e) i = false -> p' = p) /\
  (dead p = true -> ignored trigger = false ->
   reinitialised (buf e) i = true -> p_age p' = 0 /\ p_alpha p' = 1).
Proof.
  intros He Hi p p'.
  destruct (ignored trigger) eqn:Hig.
  - assert (Hp' : p' = p) by (unfold p'; rewrite spawnBurst_ignored by assumption; reflexivity).
    rewrite Hp'. split; [intros _; repeat split|]. split; [reflexivity | discriminate].
  - assert (Hp' : p' = spawn_slot (random_calls e) (buf e) i)
      by (apply slot_spawnBurst; assumption).
    rewrite Hp'. split; [|split].
    + intros Ha. rewrite spawn_slot_before_impulse, before_impulse_alive by assumption.
      apply impulse_slot_frame.
    + intros Hd [Habs|Hre]; [discriminate|].
      rewrite spawn_slot_kept by assumption. apply impulse_slot_dead, Hd.
    + intros Hd _ Hre. rewrite spawn_slot_reinitialised by assumption.
      destruct (impulse_slot_frame
                  (respawn_slot (random_calls e + 7 * dead_below (buf e) i)))
        as (_ & -> & _ & _ & ->).
      split; reflexivity.
Qed.

Lemma spawn_frame_witness :
  let p := slot (buf init) 600 in
  let p' := slot (buf (@spawnBurst cycle_math (Some "a"%string) init)) 600 in
  (alive p = true ->
   p_position p' = p_position p /\ p_age p' = p_age p /\
   p_lifetime p' = p_lifetime p /\ p_size p' = p_size p /\
   p_alpha p' = p_alpha p) /\
  (dead p = true ->
   ignored (Some "a"%string) = true \/ reinitialised (buf init) 600 = false -> p' = p) /\
  (dead p = true -> ignored (Some "a"%string) = false ->
   reinitialised (buf init) 600 = true -> p_age p' = 0 /\ p_alpha p' = 1).
Proof.
  apply (spawn_frame cycle_math init (Some "a"%string) 600 wf_init).
  apply capacity_pos. lia.
Defined.

(** ** Dirty flags of a frame *)

Lemma frame_body_dead (delta : Q) (st : buffers * bool) (i : nat) :
  alive (slot (fst st) i) = false -> frame_body delta st i = st.
Proof.
  intros Hd. unfold frame_body. unfold alive in Hd. cbn [slot p_age p_lifetime] in Hd.
  rewrite Hd. reflexivity.
Qed.









(** ** Idle frames *)

Lemma frame_loop_idle (delta : Q) (b : buffers) (flag : bool) (m : nat) :
  (forall i, (i < m)%nat -> alive (slot b i) = false) ->
  frame_loop delta m (b, flag) = (b, flag).
Proof.
  induction m as [|m IH]; intros Hall; [reflexivity|].
  rewrite frame_loop_S, IH by (intros; apply Hall; lia).
  apply frame_body_dead. cbn [fst]. apply Hall. lia.
Qed.

(** X2. With no particle alive and no shake, a frame changes nothing but
    [baseCamPosRef], which it captures; once the base position is captured
    the frame returns the engine unchanged. *)
Theorem idle_frame (M : Math) (e : engine) (delta : Q) :
  (forall i, (i < PARTICLE_CAPACITY)%nat -> alive (slot (buf e) i) = false) ->
  shakeMagnitudeRef e <= 0 ->
  useFrame delta e
  = {| buf := buf e;
       geometryRef := geometryRef e;
       baseCamPosRef := Some (default (camera_position e) (baseCamPosRef e));
       shakeMagnitudeRef := shakeMagnitudeRef e;
       isInitialRef := isInitialRef e;
       camera_position := camera_position e;
       random_calls := random_calls e |} /\
  (forall base, baseCamPosRef e = Some base -> useFrame delta e = e).
Proof.
  intros Hall Hs. apply Qltb_ge in Hs.
  assert (Hframe : useFrame delta e
                   = Engine (buf e) (geometryRef e)
                            (Some (default (camera_position e) (baseCamPosRef e)))
                            (shakeMagnitudeRef e) (isInitialRef e)
                            (camera_position e) (random_calls e)).
  { unfold useFrame. rewrite frame_loop_idle by exact Hall. rewrite Hs. reflexivity. }
  split; [exact Hframe|].
  intros base Hb. rewrite Hframe. clear Hframe Hall Hs.
  destruct e as [b g bc s ini c r]. cbn in Hb |- *. rewrite Hb. reflexivity.
Qed.

Lemma init_none_alive (i : nat) :
  (i < PARTICLE_CAPACITY)%nat -> alive (slot (buf init) i) = false.
Proof. intros Hi. apply dead_not_alive, init_all_dead, Hi. Qed.

Lemma idle_frame_witness :
  @useFrame cycle_math 0.016 init
  = {| buf := buf init;
       geometryRef := geometryRef init;
       baseCamPosRef := Some (default (camera_position init) (baseCamPosRef init));
       shakeMagnitudeRef := shakeMagnitudeRef init;
       isInitialRef := isInitialRef init;
       camera_position := camera_position init;
       random_calls := random_calls init |} /\
  (forall base, baseCamPosRef init = Some base -> @useFrame cycle_math 0.016 init = init).
Proof.
  apply (idle_frame cycle_math init 0.016 init_none_alive).
  cbn [init shakeMagnitudeRef]. apply Qle_refl.
Defined.

(** ** Life and death in a frame *)

(** X3. A frame never revives a particle: a slot alive after the frame was
    alive before it; an alive slot whose age plus [delta] reaches its
    lifetime ([delta] equal to the remaining lifetime included) is not
    alive after the frame; the lifetime is never changed, and a slot that
    is not alive is not touched. *)
Theorem frame_survival (M : Math) (e : engine) (delta : Q) (i : nat) :
  wf e -> (i < PARTICLE_CAPACITY)%nat ->
  let p := slot (buf e) i in
  let p' := slot (buf (useFrame delta e)) i in
  (alive p' = true -> alive p = true) /\
  (alive p = true -> p_lifetime p <= p_age p + delta -> alive p' = false) /\
  p_lifetime p' = p_lifetime p /\
  (alive p = false -> p' = p).
Proof.
  intros He Hi p p'.
  assert (Hp' : p' = step_slot delta p) by (apply slot_useFrame; assumption).
  rewrite Hp'. split; [|split; [|split]].
  - unfold step_slot. destruct (alive p) eqn:Ha; [reflexivity|].
    rewrite Ha. discriminate.
  - intros Ha Hx. rewrite step_slot_expired by (assumption || lra).
    apply dead_not_alive, dead_ge. cbn [p_age p_lifetime]. exact Hx.
  - apply step_slot_lifetime.
  - intros Ha. unfold step_slot. rewrite Ha. reflexivity.
Qed.

Lemma frame_survival_witness :
  let e := first_burst cycle_math in
  let p := slot (buf e) 5 in
  let p' := slot (buf (@useFrame cycle_math 1 e)) 5 in
  (alive p = true /\ p_lifetime p <= p_age p + 1) /\
  (alive p' = true -> alive p = true) /\
  (alive p = true -> p_lifetime p <= p_age p + 1 -> alive p' = false) /\
  p_lifetime p' = p_lifetime p /\
  (alive p = false -> p' = p).
Proof.
  intros e p p'.
  assert (Hi : (5 < PARTICLE_CAPACITY)%nat) by (apply capacity_pos; lia).
  assert (Hwf : wf e) by apply wf_spawnBurst, wf_init.
  assert (Hx : p_lifetime p <= p_age p + 1).
  { pose proof (slot_first_burst cycle_math 5 Hi) as Hburst.
    unfold p, e. rewrite Hburst. vm_compute. discriminate. }
  split; [split; [exact alive_first_burst_5 | exact Hx]|].
  apply (frame_survival cycle_math e 1 5 Hwf Hi).
Defined.

(** X4. In a frame, the new state of a slot depends on that slot only:
    not on the other particles, the camera, the shake or the values of
    [Math.random()]. *)
Theorem frame_slots_independent (M1 M2 : Math) (e1 e2 : engine) (delta : Q) (i : nat) :
  wf e1 -> wf e2 -> (i < PARTICLE_CAPACITY)%nat ->
  slot (buf e1) i = slot (buf e2) i ->
  slot (buf (@useFrame M1 delta e1)) i = slot (buf (@useFrame M2 delta e2)) i.
Proof.
  intros H1 H2 Hi Heq.
  rewrite (@slot_useFrame M1), (@slot_useFrame M2) by assumption.
  rewrite Heq. reflexivity.
Qed.

Lemma wf_first_burst (M : Math) : wf (first_burst M).
Proof. apply wf_spawnBurst, wf_init. Qed.

Lemma buf_restaged (e : engine) : buf (restaged e) = buf e.
Proof. reflexivity. Qed.

Lemma wf_other_engine : wf other_engine.
Proof. unfold wf, other_engine. rewrite buf_restaged. apply wf_first_burst. Qed.

Lemma frame_slots_independent_witness :
  let e1 := first_burst cycle_math in
  let e2 := other_engine in
  (slot (buf e1) 5 = slot (buf e2) 5 /\
   alive (slot (buf e1) 5) = true /\
   slot (buf e1) 6 <> slot (buf e2) 6) /\
  slot (buf (@useFrame cycle_math 0.016 e1)) 5
  = slot (buf (@useFrame half_math 0.016 e2)) 5.
Proof.
  intros e1 e2.
  assert (H5 : (5 < PARTICLE_CAPACITY)%nat) by (apply capacity_pos; lia).
  assert (H6 : (6 < PARTICLE_CAPACITY)%nat) by (apply capacity_pos; lia).
  pose proof (slot_first_burst cycle_math 5 H5) as Hc5.
  pose proof (slot_first_burst patch_math 5 H5) as Hp5.
  pose proof (slot_first_burst cycle_math 6 H6) as Hc6.
  pose proof (slot_first_burst patch_math 6 H6) as Hp6.
  assert (Heq : slot (buf e1) 5 = slot (buf e2) 5).
  { unfold e1, e2, other_engine. rewrite buf_restaged, Hc5, Hp5.
    vm_compute. reflexivity. }
  assert (Hne : slot (buf e1) 6 <> slot (buf e2) 6).
  { unfold e1, e2, other_engine. rewrite buf_restaged, Hc6, Hp6.
    vm_compute. intros Habs. discriminate Habs. }
  split; [split; [exact Heq | split; [exact alive_first_burst_5 | exact Hne]]|].
  apply (frame_slots_independent cycle_math half_math e1 e2 0.016 5
           (wf_first_burst cycle_math) wf_other_engine H5 Heq).
Defined.

(** ** What a spawn writes *)

Lemma respawn_slot_size `{M : Math} (k : nat) :
  random_in_range M ->
  6 <= p_size (respawn_slot k) /\ p_size (respawn_slot k) < 16.
Proof.
  intros Hr. destruct (Hr (k + 6)%nat) as [H0 H1].
  unfold respawn_slot. cbn [p_size]. split; lra.
Qed.

Lemma respawn_slot_inside `{M : Math} (k : nat) :
  random_in_range M ->
  Qltb (dist2_of (respawn_slot k)) (IMPULSE_RADIUS * IMPULSE_RADIUS) = true.
Proof.
  intros Hr. destruct (Hr k) as [Hx0 Hx1]. destruct (Hr (k + 1)%nat) as [Hy0 Hy1].
  apply Qltb_lt. unfold dist2_of, respawn_slot, IMPULSE_RADIUS. cbn [p_position vx vy vz].
  set (x := Math_random k) in *. set (y := Math_random (k + 1)) in *.
  assert (Hx : (x - 0.5) * (x - 0.5) <= 0.25) by nra.
  assert (Hy : (y - 0.5) * (y - 0.5) <= 0.25) by nra.
  nra.
Qed.

(** X5. A slot that a spawn initialises again has age 0, alpha 1, a
    lifetime of at least 0.8 and at most [LIFETIME_MAX] (stated as below
    1.6000001, which also covers the rounding of the Float32 cell), a size
    in [[6, 16]], x and y within 0.01 of the origin and z = 0. *)
Theorem respawned_slot (M : Math) (e : engine) (trigger : option string) (i : nat) :
  random_in_range M -> wf e -> ignored trigger = false ->
  (i < PARTICLE_CAPACITY)%nat -> reinitialised (buf e) i = true ->
  let p' := slot (buf (spawnBurst trigger e)) i in
  p_age p' = 0 /\ p_alpha p' = 1 /\
  0.8 <= p_lifetime p' /\ p_lifetime p' < 1.6000001 /\
  6 <= p_size p' /\ p_size p' <= 16 /\
  Qabs (vx (p_position p')) <= 0.01 /\
  Qabs (vy (p_position p')) <= 0.01 /\
  vz (p_position p') = 0.
Proof.
  intros Hr He Hig Hi Hre p'.
  assert (Hp' : p' = impulse_slot (respawn_slot (random_calls e + 7 * dead_below (buf e) i))).
  { unfold p'. rewrite slot_spawnBurst by assumption.
    apply spawn_slot_reinitialised, Hre. }
  rewrite Hp'.
  destruct (impulse_slot_frame (respawn_slot (random_calls e + 7 * dead_below (buf e) i)))
    as (-> & -> & -> & -> & ->).
  split; [reflexivity|]. split; [reflexivity|].
  pose proof (respawn_slot_lifetime (random_calls e + 7 * dead_below (buf e) i) Hr) as [Hl1 Hl2].
  pose proof (respawn_slot_size (random_calls e + 7 * dead_below (buf e) i) Hr) as [Hs1 Hs2].
  pose proof (respawn_slot_position (random_calls e + 7 * dead_below (buf e) i) Hr)
    as (Hx & Hy & Hz).
  repeat split; try assumption; lra.
Qed.


Lemma reinitialised_init_5 : reinitialised (buf init) 5 = true.
Proof. vm_compute. reflexivity. Qed.

Lemma respawned_slot_witness :
  let p' := slot (buf (@spawnBurst cycle_math (Some "a"%string) init)) 5 in
  p_age p' = 0 /\ p_alpha p' = 1 /\
  0.8 <= p_lifetime p' /\ p_lifetime p' < 1.6000001 /\
  6 <= p_size p' /\ p_size p' <= 16 /\
  Qabs (vx (p_position p')) <= 0.01 /\
  Qabs (vy (p_position p')) <= 0.01 /\
  vz (p_position p') = 0.
Proof.
  apply (respawned_slot cycle_math init (Some "a"%string) 5 cycle_math_in_range wf_init
           eq_refl (capacity_pos 5 ltac:(lia)) reinitialised_init_5).
Defined.

(** X6. A particle spawned by a pass is always inside the impulse radius,
    so the shock wave of the same pass pushes it: its velocity after the
    pass is the sampled velocity plus the gain at its position. *)
Theorem respawned_slot_pushed (M : Math) (e : engine) (trigger : option string) (i : nat) :
  random_in_range M -> wf e -> ignored trigger = false ->
  (i < PARTICLE_CAPACITY)%nat -> reinitialised (buf e) i = true ->
  let q := respawn_slot (random_calls e + 7 * dead_below (buf e) i) in
  let p' := slot (buf (spawnBurst trigger e)) i in
  let g := impulse_gain (p_position q) in
  dist2_of q < IMPULSE_RADIUS * IMPULSE_RADIUS /\
  p_position p' = p_position q /\
  p_velocity p'
  = Vec3 (vx (p_velocity q) + vx g) (vy (p_velocity q) + vy g)
         (vz (p_velocity q) + vz g).
Proof.
  intros Hr He Hig Hi Hre q p' g.
  assert (Hp' : p' = impulse_slot q).
  { unfold p'. rewrite slot_spawnBurst by assumption.
    apply spawn_slot_reinitialised, Hre. }
  pose proof (respawn_slot_inside (random_calls e + 7 * dead_below (buf e) i) Hr) as Hin.
  fold q in Hin. split; [apply Qltb_lt, Hin|].
  pose proof (respawn_slot_alive (random_calls e + 7 * dead_below (buf e) i) Hr) as Ha.
  fold q in Ha. rewrite Hp'. unfold impulse_slot. rewrite Ha, Hin.
  split; reflexivity.
Qed.

Lemma respawned_slot_pushed_witness :
  let M := cycle_math in
  let q := @respawn_slot M (random_calls init + 7 * dead_below (buf init) 5) in
  let p' := slot (buf (@spawnBurst M (Some "a"%string) init)) 5 in
  let g := impulse_gain (p_position q) in
  dist2_of q < IMPULSE_RADIUS * IMPULSE_RADIUS /\
  p_position p' = p_position q /\
  p_velocity p'
  = Vec3 (vx (p_velocity q) + vx g) (vy (p_velocity q) + vy g)
         (vz (p_velocity q) + vz g).
Proof.
  apply (respawned_slot_pushed cycle_math init (Some "a"%string) 5 cycle_math_in_range
           wf_init eq_refl (capacity_pos 5 ltac:(lia)) reinitialised_init_5).
Defined.

Lemma count_upto_mono (f : nat -> bool) (i j : nat) :
  (i <= j)%nat -> (count_upto f i <= count_upto f j)%nat.
Proof.
  induction 1 as [|j Hij IH]; [lia|]. cbn [count_upto]. destruct (f j); lia.
Qed.

Lemma reinitialised_lower (b : buffers) (i j : nat) :
  (i <= j)%nat -> dead (slot b i) = true -> reinitialised b j = true ->
  reinitialised b i = true.
Proof.
  intros Hij Hd Hre. unfold reinitialised in *. rewrite Hd. cbn [andb].
  apply andb_true_iff in Hre as [_ Hlt]. apply Nat.ltb_lt in Hlt. apply Nat.ltb_lt.
  pose proof (count_upto_mono (fun k => dead (slot b k)) i j Hij) as Hmono.
  unfold dead_below in *. lia.
Qed.

(** X7. Dead slots are reused in index order: if a spawn brings the dead
    slot [j] to life, it brings every dead slot below [j] to life too. *)
Theorem spawn_lowest_first (M : Math) (e : engine) (trigger : option string) (i j : nat) :
  random_in_range M -> wf e -> (i <= j)%nat -> (j < PARTICLE_CAPACITY)%nat ->
  dead (slot (buf e) i) = true -> dead (slot (buf e) j) = true ->
  alive (slot (buf (spawnBurst trigger e)) j) = true ->
  alive (slot (buf (spawnBurst trigger e)) i) = true.
Proof.
  intros Hr He Hij Hj Hdi Hdj Haj.
  destruct (ignored trigger) eqn:Hig.
  - rewrite spawnBurst_ignored in Haj by exact Hig.
    rewrite (dead_not_alive _ Hdj) in Haj. discriminate Haj.
  - rewrite slot_spawnBurst in Haj |- * by (assumption || lia).
    pose proof (transition_reinitialised (random_calls e) (buf e) j Hr) as Htj.
    rewrite Hdj, Haj in Htj. cbn [andb] in Htj.
    pose proof (reinitialised_lower (buf e) i j Hij Hdi (eq_sym Htj)) as Hri.
    pose proof (transition_reinitialised (random_calls e) (buf e) i Hr) as Hti.
    rewrite Hdi, Hri in Hti. exact Hti.
Qed.

Lemma spawn_lowest_first_witness :
  let e' := @spawnBurst cycle_math (Some "a"%string) init in
  (dead (slot (buf init) 2) = true /\ dead (slot (buf init) 5) = true /\
   alive (slot (buf e') 5) = true) /\
  alive (slot (buf e') 2) = true.
Proof.
  intros e'.
  assert (H2 : dead (slot (buf init) 2) = true) by (apply init_all_dead, capacity_pos; lia).
  assert (H5 : dead (slot (buf init) 5) = true) by (apply init_all_dead, capacity_pos; lia).
  split; [split; [exact H2 | split; [exact H5 | exact alive_first_burst_5]]|].
  apply (spawn_lowest_first cycle_math init (Some "a"%string) 2 5 cycle_math_in_range wf_init);
    [lia | apply capacity_pos; lia | exact H2 | exact H5 | exact alive_first_burst_5].
Defined.

(** ** Sampling *)

(** X8. [randomBetween(min, max)] with [min <= max] lies in
    [[min, max]], and below [max] when [min < max]. *)
Theorem randomBetween_range (M : Math) (min max : Q) (k : nat) :
  random_in_range M -> min <= max ->
  min <= randomBetween min max k /\ randomBetween min max k <= max /\
  (min < max -> randomBetween min max k < max).
Proof.
  intros Hr Hmm. destruct (Hr k) as [H0 H1]. unfold randomBetween.
  set (r := Math_random k) in *.
  assert (Hlo : 0 <= r * (max - min)) by (apply Qmult_le_0_compat; lra).
  assert (Hhi : 0 <= (1 - r) * (max - min)) by (apply Qmult_le_0_compat; lra).
  split; [lra|]. split; [lra|].
  intros Hlt. assert (Hst : 0 < (1 - r) * (max - min)) by (apply Qmult_lt_0_compat; lra).
  lra.
Qed.

Lemma randomBetween_range_witness :
  SPEED_MIN <= @randomBetween cycle_math SPEED_MIN SPEED_MAX 4 /\
  @randomBetween cycle_math SPEED_MIN SPEED_MAX 4 <= SPEED_MAX /\
  (SPEED_MIN < SPEED_MAX -> @randomBetween cycle_math SPEED_MIN SPEED_MAX 4 < SPEED_MAX).
Proof.
  apply (randomBetween_range cycle_math SPEED_MIN SPEED_MAX 4 cycle_math_in_range).
  vm_compute. discriminate.
Defined.

(** ** Camera shake *)

(** X10. Over any run of frames with non-negative frame times and no
    spawn, the shake magnitude is
    [max(0, m - SHAKE_DECAY_PER_SEC * elapsed)]. *)
Theorem shake_closed_form (M : Math) (e : engine) (deltas : list Q) :
  0 <= shakeMagnitudeRef e ->
  Forall (fun delta => 0 <= delta) deltas ->
  shakeMagnitudeRef (frames deltas e)
  == Qmax 0 (shakeMagnitudeRef e - SHAKE_DECAY_PER_SEC * elapsed deltas).
Proof.
  intros Hm Hpos. revert e Hm.
  induction Hpos as [|delta deltas Hd Hpos IH]; intros e Hm.
  - cbn [frames fold_left elapsed fold_right]. unfold SHAKE_DECAY_PER_SEC.
    rewrite Q.max_r by lra. ring.
  - change (frames (delta :: deltas) e) with (frames deltas (useFrame delta e)).
    cbn [elapsed fold_right]. fold (elapsed deltas).
    assert (Hel : 0 <= elapsed deltas).
    { clear IH. induction Hpos as [|d ds Hd' _ IHd]; [apply Qle_refl|].
      cbn [elapsed fold_right]. fold (elapsed ds). lra. }
    unfold SHAKE_DECAY_PER_SEC in *.
    destruct (Qlt_le_dec 0 (shakeMagnitudeRef e)) as [Hlt|Hle].
    + destruct (useFrame_shaking delta e Hlt) as (Hs & _).
      unfold Math_max, SHAKE_DECAY_PER_SEC in Hs.
      rewrite IH by (rewrite Hs; apply Q.le_max_l). rewrite Hs.
      destruct (Q.max_spec 0 (shakeMagnitudeRef e - 1 * delta)) as [[H1 ->]|[H1 ->]].
      * apply Q.max_compat; [reflexivity | ring].
      * rewrite !Q.max_l by lra. reflexivity.
    + destruct (useFrame_still delta e Hle) as (Hs & _).
      rewrite IH by (rewrite Hs; exact Hm). rewrite Hs.
      rewrite !Q.max_l by lra. reflexivity.
Qed.

Lemma shake_closed_form_witness :
  let e := first_burst cycle_math in
  let deltas := [0.05; 0.03] in
  (0 <= shakeMagnitudeRef e /\ Forall (fun delta => 0 <= delta) deltas) /\
  shakeMagnitudeRef (@frames cycle_math deltas e)
  == Qmax 0 (shakeMagnitudeRef e - SHAKE_DECAY_PER_SEC * elapsed deltas).
Proof.
  intros e deltas.
  assert (Hm : 0 <= shakeMagnitudeRef e)
    by (unfold e; rewrite shake_first_burst; discriminate).
  assert (Hpos : Forall (fun delta => 0 <= delta) deltas)
    by (repeat constructor; discriminate).
  split; [split; assumption|].
  apply (shake_closed_form cycle_math e deltas Hm Hpos).
Defined.

(** X11. A frame run while the camera shakes leaves the camera within
    [mag] of the base position on x, [0.8 * mag] on y and [0.3 * mag] on
    z. *)
Theorem shake_offset_bounded (M : Math) (e : engine) (delta : Q) :
  random_in_range M -> 0 < shakeMagnitudeRef e ->
  let base := default (camera_position e) (baseCamPosRef e) in
  let mag := shakeMagnitudeRef e in
  let c := camera_position (useFrame delta e) in
  Qabs (vx c - vx base) <= mag /\
  Qabs (vy c - vy base) <= 0.8 * mag /\
  Qabs (vz c - vz base) <= 0.3 * mag.
Proof.
  intros Hr Hm base mag c.
  destruct (useFrame_shaking delta e Hm) as (_ & _ & Hc).
  fold base in Hc. fold mag in Hc. fold c in Hc. fold mag in Hm.
  destruct (Hr (random_calls e)) as [Hx0 Hx1].
  destruct (Hr (random_calls e + 1)%nat) as [Hy0 Hy1].
  destruct (Hr (random_calls e + 2)%nat) as [Hz0 Hz1].
  rewrite Hc. destruct (Qeq_bool _ 0).
  - repeat split; apply Qabs_Qle_condition; split; lra.
  - unfold shaken. cbn [vx vy vz].
    set (rx := Math_random (random_calls e)) in *.
    set (ry := Math_random (random_calls e + 1)) in *.
    set (rz := Math_random (random_calls e + 2)) in *.
    repeat split; apply Qabs_Qle_condition; split; nra.
Qed.

Lemma shake_offset_bounded_witness :
  let M := cycle_math in
  let e := first_burst M in
  let base := default (camera_position e) (baseCamPosRef e) in
  let mag := shakeMagnitudeRef e in
  let c := camera_position (useFrame 0.016 e) in
  0 < shakeMagnitudeRef e /\
  Qabs (vx c - vx base) <= mag /\
  Qabs (vy c - vy base) <= 0.8 * mag /\
  Qabs (vz c - vz base) <= 0.3 * mag.
Proof.
  intros M e base mag c.
  assert (Hm : 0 < shakeMagnitudeRef e)
    by (unfold e; rewrite shake_first_burst; reflexivity).
  split; [exact Hm|].
  apply (shake_offset_bounded M e 0.016 cycle_math_in_range Hm).
Defined.

Lemma base_useFrame `{Math} (delta : Q) (e : engine) :
  baseCamPosRef (useFrame delta e)
  = Some (default (camera_position e) (baseCamPosRef e)).
Proof. unfold useFrame. destruct (Qltb 0 _); reflexivity. Qed.

Lemma base_spawnBurst `{Math} (trigger : option string) (e : engine) :
  baseCamPosRef (spawnBurst trigger e) = baseCamPosRef e /\
  camera_position (spawnBurst trigger e) = camera_position e.
Proof. unfold spawnBurst. destruct (ignored trigger); split; reflexivity. Qed.

Lemma base_triggerEffect `{Math} (trigger : option string) (e : engine) :
  baseCamPosRef (triggerEffect trigger e) = baseCamPosRef e /\
  camera_position (triggerEffect trigger e) = camera_position e.
Proof.
  unfold triggerEffect. destruct (isInitialRef e); [split; reflexivity|].
  apply base_spawnBurst.
Qed.

(** X12. The base camera position is captured by the first frame and
    never changes afterwards, whatever effects and frames follow: the
    shaken positions are never captured. *)
Theorem base_captured_once (M : Math) (events : list event) (delta : Q) (e : engine) :
  baseCamPosRef (run events (useFrame delta e))
  = Some (default (camera_position e) (baseCamPosRef e)).
Proof.
  induction events as [|ev events IH] using rev_ind.
  - apply base_useFrame.
  - unfold run in *. rewrite fold_left_app. cbn [fold_left].
    destruct ev as [trigger|delta']; cbn [handle].
    + destruct (base_triggerEffect trigger
                  (fold_left handle events (useFrame delta e))) as [-> _].
      exact IH.
    + rewrite base_useFrame, IH. reflexivity.
Qed.

(** ** Runs from the mount *)

Lemma run_snoc `{Math} (events : list event) (ev : event) (e : engine) :
  run (events ++ [ev]) e = handle (run events e) ev.
Proof. unfold run. rewrite fold_left_app. reflexivity. Qed.

Lemma reachable_run `{Math} (events : list event) : reachable (run events init).
Proof.
  induction events as [|ev events IH] using rev_ind; [apply reach_init|].
  rewrite run_snoc. destruct ev; [apply reach_effect | apply reach_frame]; exact IH.
Qed.

Lemma forward_snoc (events : list event) (ev : event) :
  Forall forward (events ++ [ev]) -> Forall forward events /\ forward ev.
Proof.
  intros Hf. apply Forall_app in Hf as [Hes Hev]. split; [exact Hes|].
  apply Forall_inv in Hev. exact Hev.
Qed.

(** X13. From the mount, with non-negative frame times, the shake
    magnitude always lies in [[0, 0.12]]. *)
Theorem shake_within_limits (M : Math) (events : list event) :
  Forall forward events ->
  0 <= shakeMagnitudeRef (run events init) /\
  shakeMagnitudeRef (run events init) <= 0.12.
Proof.
  induction events as [|ev events IH] using rev_ind; intros Hf.
  - cbn. split; lra.
  - apply forward_snoc in Hf as [Hes Hev]. destruct (IH Hes) as [H0 H1].
    rewrite run_snoc. set (e := run events init) in *.
    destruct ev as [trigger|delta]; cbn [handle forward] in *.
    + unfold triggerEffect. destruct (isInitialRef e); [split; assumption|].
      unfold spawnBurst. destruct (ignored trigger); [split; assumption|].
      cbn [shakeMagnitudeRef]. unfold Math_max. rewrite Q.max_r by exact H1. split; lra.
    + destruct (Qlt_le_dec 0 (shakeMagnitudeRef e)) as [Hlt|Hle].
      * destruct (useFrame_shaking delta e Hlt) as (-> & _).
        unfold Math_max, SHAKE_DECAY_PER_SEC. split; [apply Q.le_max_l|].
        apply Q.max_lub; lra.
      * destruct (useFrame_still delta e Hle) as (-> & _). split; assumption.
Qed.

Lemma shake_within_limits_witness :
  let events := [Effect (Some ""%string); Effect (Some "a"%string); Frame 0.016;
                 Effect (Some "b"%string); Frame 0.02] in
  Forall forward events /\
  0 <= shakeMagnitudeRef (@run cycle_math events init) /\
  shakeMagnitudeRef (@run cycle_math events init) <= 0.12.
Proof.
  intros events.
  assert (Hf : Forall forward events).
  { repeat constructor; cbn; discriminate. }
  split; [exact Hf|]. apply (shake_within_limits cycle_math events Hf).
Defined.

Lemma in_ranges_retire_slot (p : particle) : in_ranges p -> in_ranges (retire_slot p).
Proof.
  intros (Ha & H0 & H1 & Hs). unfold retire_slot. destruct (Qgeb _ _).
  - unfold in_ranges. cbn. repeat split; lra.
  - repeat split; assumption.
Qed.

Lemma in_ranges_integrate_slot (delta : Q) (p : particle) :
  0 <= delta -> in_ranges p -> in_ranges (integrate_slot delta p).
Proof.
  intros Hd (Ha & H0 & H1 & Hs). unfold in_ranges, integrate_slot.
  cbn [p_age p_alpha p_size].
  set (m := Math_max 0.0001 (p_lifetime p)).
  assert (Hm : 0.0001 <= m) by apply Q.le_max_l.
  assert (Hx : 0 <= (p_age p + delta) / m)
    by (apply Qle_shift_div_l; lra).
  set (t := Math_min 1 ((p_age p + delta) / m)).
  assert (Ht1 : t <= 1) by apply Q.le_min_l.
  assert (Ht0 : 0 <= t) by (apply Q.min_glb; lra).
  split; [lra|]. split; [nra|]. split; [nra|].
  destruct (Qltb (p_age p) 0.06); lra.
Qed.

Lemma in_ranges_step_slot (delta : Q) (p : particle) :
  0 <= delta -> in_ranges p -> in_ranges (step_slot delta p).
Proof.
  intros Hd Hp. unfold step_slot. destruct (alive p); [|exact Hp].
  apply in_ranges_retire_slot, in_ranges_integrate_slot; assumption.
Qed.

Lemma in_ranges_spawn_slot `{M : Math} (k0 : nat) (b : buffers) (i : nat) :
  random_in_range M -> in_ranges (slot b i) -> in_ranges (spawn_slot k0 b i).
Proof.
  intros Hr Hp. unfold spawn_slot, in_ranges. destruct (reinitialised b i).
  - destruct (impulse_slot_frame (respawn_slot (k0 + 7 * dead_below b i)))
      as (_ & -> & _ & -> & ->).
    pose proof (respawn_slot_size (k0 + 7 * dead_below b i) Hr) as [Hs _].
    cbn [respawn_slot p_age p_alpha]. repeat split; lra.
  - destruct (impulse_slot_frame (slot b i)) as (_ & -> & _ & -> & ->). exact Hp.
Qed.

Lemma attributes_in_ranges_aux (M : Math) (events : list event) (i : nat) :
  random_in_range M -> Forall forward events -> (i < PARTICLE_CAPACITY)%nat ->
  in_ranges (slot (buf (run events init)) i).
Proof.
  intros Hr Hf Hi.
  induction events as [|ev events IH] using rev_ind.
  - cbn [run fold_left init buf]. rewrite slot_init by exact Hi.
    unfold in_ranges. cbn [p_age p_alpha p_size].
    repeat split; try lra. unfold Qle, inject_Z. cbn. lia.
  - apply forward_snoc in Hf as [Hes Hev]. specialize (IH Hes).
    rewrite run_snoc. pose proof (reachable_wf _ (reachable_run events)) as Hwf.
    set (e := run events init) in *.
    destruct ev as [trigger|delta]; cbn [handle forward] in *.
    + unfold triggerEffect. destruct (isInitialRef e); [exact IH|].
      destruct (ignored trigger) eqn:Hig.
      * rewrite spawnBurst_ignored by exact Hig. exact IH.
      * rewrite slot_spawnBurst by assumption. apply in_ranges_spawn_slot; assumption.
    + rewrite slot_useFrame by assumption. apply in_ranges_step_slot; assumption.
Qed.

(** X14. From the mount, with non-negative frame times, every slot has
    a non-negative age, an alpha in [[0, 1]] and a non-negative size. *)
Theorem attributes_in_ranges (M : Math) (events : list event) (i : nat) :
  random_in_range M -> Forall forward events -> (i < PARTICLE_CAPACITY)%nat ->
  let p := slot (buf (run events init)) i in
  0 <= p_age p /\ 0 <= p_alpha p /\ p_alpha p <= 1 /\ 0 <= p_size p.
Proof.
  intros Hr Hf Hi p.
  destruct (attributes_in_ranges_aux M events i Hr Hf Hi) as (Hage & Ha0 & Ha1 & Hs).
  repeat split; assumption.
Qed.

Lemma attributes_in_ranges_witness :
  let events := [Effect (Some ""%string); Effect (Some "a"%string); Frame 0.016] in
  let p := slot (buf (@run cycle_math events init)) 5 in
  Forall forward events /\
  0 <= p_age p /\ 0 <= p_alpha p /\ p_alpha p <= 1 /\ 0 <= p_size p.
Proof.
  intros events p.
  assert (Hf : Forall forward events).
  { repeat constructor; cbn; discriminate. }
  split; [exact Hf|].
  apply (attributes_in_ranges cycle_math events 5 cycle_math_in_range Hf).
  apply capacity_pos. lia.
Defined.

(** ** The trigger effect *)

Lemma isInitial_spawnBurst `{Math} (trigger : option string) (e : engine) :
  isInitialRef (spawnBurst trigger e) = isInitialRef e.
Proof. unfold spawnBurst. destruct (ignored trigger); reflexivity. Qed.

Lemma isInitial_useFrame `{Math} (delta : Q) (e : engine) :
  isInitialRef (useFrame delta e) = isInitialRef e.
Proof. unfold useFrame. destruct (Qltb 0 _); reflexivity. Qed.

Lemma isInitial_triggerEffect `{Math} (trigger : option string) (e : engine) :
  isInitialRef (triggerEffect trigger e) = false.
Proof.
  unfold triggerEffect. destruct (isInitialRef e) eqn:Hi; [reflexivity|].
  rewrite isInitial_spawnBurst. exact Hi.
Qed.

Lemma isInitial_handle `{Math} (e : engine) (ev : event) :
  isInitialRef e = false -> isInitialRef (handle e ev) = false.
Proof.
  intros Hi. destruct ev; cbn [handle];
    [apply isInitial_triggerEffect | rewrite isInitial_useFrame; exact Hi].
Qed.

(** X15. Only the first run of the trigger effect is swallowed: on an
    engine with [isInitialRef] set it changes nothing but that flag,
    whatever the key; after it the flag stays cleared through every effect
    and frame, and each later run of the effect is [spawnBurst]. *)
Theorem only_first_effect_skipped
  (M : Math) (e : engine) (first next : option string) (events : list event) :
  (isInitialRef e = true ->
   triggerEffect first e
   = {| buf := buf e;
        geometryRef := geometryRef e;
        baseCamPosRef := baseCamPosRef e;
        shakeMagnitudeRef := shakeMagnitudeRef e;
        isInitialRef := false;
        camera_position := camera_position e;
        random_calls := random_calls e |}) /\
  isInitialRef (run (Effect first :: events) e) = false /\
  triggerEffect next (run (Effect first :: events) e)
  = spawnBurst next (run (Effect first :: events) e).
Proof.
  split; [intros Hi; unfold triggerEffect; rewrite Hi; reflexivity|].
  assert (Hfalse : isInitialRef (run (Effect first :: events) e) = false).
  { change (run (Effect first :: events) e) with (run events (triggerEffect first e)).
    generalize (isInitial_triggerEffect first e). generalize (triggerEffect first e).
    induction events as [|ev events IH]; intros e1 He1; [exact He1|].
    change (run (ev :: events) e1) with (run events (handle e1 ev)).
    apply IH, isInitial_handle, He1. }
  split; [exact Hfalse|]. unfold triggerEffect at 1. rewrite Hfalse. reflexivity.
Qed.

(** ** Filling the pool *)

Lemma count_upto_disjoint (f g : nat -> bool) (n : nat) :
  (forall i, (i < n)%nat -> f i && g i = false) ->
  count_upto (fun i => f i || g i) n = (count_upto f n + count_upto g n)%nat.
Proof.
  induction n as [|n IH]; intros Hd; [reflexivity|].
  cbn [count_upto]. rewrite IH by (intros; apply Hd; lia).
  specialize (Hd n (Nat.lt_succ_diag_r n)).
  destruct (f n), (g n); cbn in *; try discriminate Hd; lia.
Qed.

Lemma count_upto_negb (f : nat -> bool) (n : nat) :
  (count_upto f n + count_upto (fun i => negb (f i)) n = n)%nat.
Proof. induction n as [|n IH]; cbn [count_upto]; [reflexivity|]. destruct (f n); cbn; lia. Qed.

Lemma alive_spawn_slot `{M : Math} (k0 : nat) (b : buffers) (i : nat) :
  random_in_range M ->
  alive (spawn_slot k0 b i) = alive (slot b i) || reinitialised b i.
Proof.
  intros Hr. destruct (reinitialised b i) eqn:Hre.
  - rewrite spawn_slot_reinitialised, alive_impulse_slot, respawn_slot_alive by assumption.
    rewrite orb_true_r. reflexivity.
  - rewrite spawn_slot_kept, alive_impulse_slot by assumption.
    rewrite orb_false_r. reflexivity.
Qed.

Lemma alive_count_spawnBurst `{M : Math} (e : engine) (trigger : option string) :
  random_in_range M -> wf e -> ignored trigger = false ->
  alive_count (spawnBurst trigger e)
  = (alive_count e + Nat.min 500 (PARTICLE_CAPACITY - alive_count e))%nat.
Proof.
  intros Hr He Hig. unfold alive_count.
  rewrite (count_upto_ext _ (fun i => alive (slot (buf e) i) || reinitialised (buf e) i)).
  2:{ intros i Hi. rewrite slot_spawnBurst by assumption. apply alive_spawn_slot, Hr. }
  rewrite count_upto_disjoint.
  2:{ intros i _. unfold reinitialised. rewrite alive_not_dead.
      destruct (dead (slot (buf e) i)); reflexivity. }
  apply (f_equal (Nat.add _)). unfold reinitialised.
  rewrite (count_upto_budget (fun i => dead (slot (buf e) i))).
  pose proof (count_upto_negb (fun i => dead (slot (buf e) i)) PARTICLE_CAPACITY) as Hsum.
  rewrite (count_upto_ext (fun i => negb (dead (slot (buf e) i)))
             (fun i => alive (slot (buf e) i))) in Hsum by reflexivity.
  change BURST_PARTICLE_COUNT with 500%nat. lia.
Qed.

Lemma wf_bursts `{Math} (n : nat) (stroke : string) (e : engine) :
  wf e -> wf (bursts n stroke e).
Proof. intros He. induction n as [|n IH]; [exact He|]. apply wf_spawnBurst, IH. Qed.

Lemma alive_count_init : alive_count init = 0%nat.
Proof.
  unfold alive_count.
  rewrite (count_upto_ext _ (fun _ => false)) by (intros; apply init_none_alive; assumption).
  generalize PARTICLE_CAPACITY. intros n. induction n as [|n IH]; cbn [count_upto]; lia.
Qed.

(** X16. A spawn that is not ignored adds
    [min 500 (capacity - alive)] alive particles and kills none; [n] key
    strokes in a row from the mount leave [min 5000 (500 * n)] particles
    alive, so the pool is full after ten and the eleventh spawns nothing. *)
Theorem bursts_fill_pool (M : Math) (e : engine) (stroke : string) (n : nat) :
  random_in_range M -> wf e -> is_modifier stroke = false ->
  alive_count (spawnBurst (Some stroke) e)
  = (alive_count e + Nat.min 500 (PARTICLE_CAPACITY - alive_count e))%nat /\
  alive_count (bursts n stroke init) = Nat.min 5000 (500 * n).
Proof.
  intros Hr He Hmod. split; [apply alive_count_spawnBurst; assumption|].
  clear e He. induction n as [|n IH].
  - cbn [bursts]. rewrite alive_count_init. lia.
  - cbn [bursts].
    rewrite alive_count_spawnBurst; [|exact Hr|apply wf_bursts, wf_init|exact Hmod].
    rewrite IH. unfold PARTICLE_CAPACITY. lia.
Qed.

Lemma bursts_fill_pool_witness :
  let M := cycle_math in
  alive_count (spawnBurst (Some "a"%string) init)
  = (alive_count init + Nat.min 500 (PARTICLE_CAPACITY - alive_count init))%nat /\
  alive_count (bursts 11 "a"%string init) = Nat.min 5000 (500 * 11).
Proof.
  apply (bursts_fill_pool cycle_math init "a"%string 11 cycle_math_in_range wf_init).
  reflexivity.
Defined.

Lemma alive_step_slot (delta : Q) (p : particle) :
  alive (step_slot delta p) = true ->
  alive p = true /\ p_age (step_slot delta p) = p_age p + delta.
Proof.
  unfold step_slot. destruct (alive p) eqn:Ha; [|intros Hp; rewrite Ha in Hp; discriminate Hp].
  intros Hal. rewrite (retire_slot_alive _ Hal). split; reflexivity.
Qed.

(** ** The fade *)

Lemma faded_spawn_slot `{M : Math} (k0 : nat) (b : buffers) (i : nat) :
  random_in_range M -> faded (slot b i) -> faded (spawn_slot k0 b i).
Proof.
  intros Hr Hp. unfold spawn_slot. destruct (reinitialised b i).
  - intros _.
    destruct (impulse_slot_frame (respawn_slot (k0 + 7 * dead_below b i)))
      as (_ & -> & -> & _ & ->).
    pose proof (respawn_slot_lifetime (k0 + 7 * dead_below b i) Hr) as [Hl _].
    split; [exact Hl|]. cbn [respawn_slot p_age p_alpha].
    unfold Qdiv. rewrite Qmult_0_l. reflexivity.
  - intros Ha. rewrite alive_impulse_slot in Ha.
    destruct (impulse_slot_frame (slot b i)) as (_ & -> & -> & _ & ->). apply Hp, Ha.
Qed.

Lemma faded_step_slot (delta : Q) (p : particle) :
  faded p -> faded (step_slot delta p).
Proof.
  intros Hp Hal. destruct (alive_step_slot delta p Hal) as (Ha & Hage).
  destruct (Hp Ha) as [Hl _]. rewrite step_slot_lifetime. split; [exact Hl|].
  apply alive_lt in Hal. rewrite Hage, step_slot_lifetime in Hal.
  rewrite Hage. unfold step_slot. rewrite Ha.
  rewrite retire_slot_young by (unfold integrate_slot; cbn [p_age p_lifetime]; exact Hal).
  unfold integrate_slot. cbn [p_alpha].
  rewrite fraction_clamped by lra. unfold Math_min.
  rewrite Q.min_r by (apply Qle_shift_div_r; lra).
  cbn. ring.
Qed.

(** X18. In every reachable state the alpha of an alive particle is
    [(1 - age / lifetime)^2]. *)
Theorem alpha_follows_age (M : Math) (e : engine) (i : nat) :
  random_in_range M -> reachable e -> (i < PARTICLE_CAPACITY)%nat ->
  let p := slot (buf e) i in
  alive p = true ->
  p_alpha p == (1 - p_age p / p_lifetime p) ^ 2.
Proof.
  intros Hr He Hi p Ha.
  assert (Hf : faded p).
  { unfold p. clear p Ha. revert e He i Hi. apply (reachable_slot_invariant faded).
    - intros j Hj. rewrite slot_init by exact Hj. intros Hal.
      apply alive_lt in Hal. cbn [p_age p_lifetime] in Hal.
      unfold Qlt, inject_Z in Hal. cbn in Hal. lia.
    - intros k0 b j. apply faded_spawn_slot, Hr.
    - intros delta q. apply faded_step_slot. }
  apply Hf, Ha.
Qed.

Lemma alpha_follows_age_witness :
  let e := @useFrame cycle_math 0.016 (first_burst cycle_math) in
  let p := slot (buf e) 5 in
  alive p = true /\
  p_alpha p == (1 - p_age p / p_lifetime p) ^ 2.
Proof.
  intros e p.
  assert (Hi : (5 < PARTICLE_CAPACITY)%nat) by (apply capacity_pos; lia).
  assert (Hwf : wf (first_burst cycle_math)) by apply wf_spawnBurst, wf_init.
  assert (Ha : alive p = true).
  { pose proof (@slot_useFrame cycle_math 0.016 _ 5 Hwf Hi) as Hstep.
    pose proof (slot_first_burst cycle_math 5 Hi) as Hburst.
    unfold p, e. rewrite Hstep, Hburst. vm_compute. reflexivity. }
  split; [exact Ha|].
  apply (alpha_follows_age cycle_math e 5 cycle_math_in_range); [|exact Hi|exact Ha].
  apply reach_frame, reachable_first_burst.
Defined.
